(** * CFML: the custom format message log of [pycfml/cfml.py]

  A shallow embedding of [CustomFormatDB]: the line grammar (three regular
  expressions run by a backtracking matcher), the parser [load], the
  printer [dumps] and the operations on the block store.

  Text is a list of characters.  A character is an [ascii], that is a code
  point in U+0000..U+00FF; the character classes below list every member
  that the Python classes ([str.isspace], [str.splitlines] boundaries and
  the decimal digits of [\d]) have in that range. *)

From Stdlib Require Import Ascii String ZArith Lia.
From stdpp Require Import base decidable option list strings.

Local Open Scope Z_scope.
Local Open Scope nat_scope.
Local Open Scope list_scope.

Abbreviation str := (list ascii).

(** [lit "abc"] is the text of a literal of the source. *)
Definition lit (s : string) : str := list_ascii_of_string s.

(** ** Character classes *)

Module Char.

Definition code (c : ascii) : nat := nat_of_ascii c.
Definition chr (n : nat) : ascii := ascii_of_nat n.

Definition LF : ascii := chr 10.
Definition CR : ascii := chr 13.

(** The line boundaries of [str.splitlines]: \n \v \f \r \x1c \x1d \x1e
    \x85. *)
Definition line_boundaries : list ascii :=
  map chr [10; 11; 12; 13; 28; 29; 30; 133].

(** The white space of [str.strip] and of [\s]: \t \n \v \f \r \x1c \x1d
    \x1e \x1f, the space, \x85 and \xa0. *)
Definition whitespace : list ascii :=
  map chr [9; 10; 11; 12; 13; 28; 29; 30; 31; 32; 133; 160].

Definition is_linebreak (c : ascii) : bool := bool_decide (c ∈ line_boundaries).
Definition isspace (c : ascii) : bool := bool_decide (c ∈ whitespace).
Definition isdigit (c : ascii) : bool :=
  (48 <=? code c) && (code c <=? 57).

End Char.

(** ** The string methods used by [load] and [dumps] *)

Module Str.

(** [not s]: the empty string is the only falsy one. *)
Definition is_empty (s : str) : bool :=
  match s with [] => true | _ => false end.

Fixpoint lstrip (s : str) : str :=
  match s with
  | c :: s' => if Char.isspace c then lstrip s' else s
  | [] => []
  end.

Definition rstrip (s : str) : str := reverse (lstrip (reverse s)).

(** [s.strip()] *)
Definition strip (s : str) : str := rstrip (lstrip s).

(** [s.splitlines()]: [cur] is the line read so far.  A boundary ends the
    line, \r\n counts as one boundary, and what follows the last boundary
    is a line only when it is not empty. *)
Fixpoint splitlines_from (cur : str) (s : str) : list str :=
  match s with
  | [] => if is_empty cur then [] else [cur]
  | c :: s' =>
      if Char.is_linebreak c then
        cur :: match s' with
               | c' :: s'' =>
                   if bool_decide (c = Char.CR) && bool_decide (c' = Char.LF)
                   then splitlines_from [] s''
                   else splitlines_from [] s'
               | [] => splitlines_from [] s'
               end
      else splitlines_from (cur ++ [c]) s'
  end.

Definition splitlines (s : str) : list str := splitlines_from [] s.

(** ["\n".join(ls)] *)
Fixpoint join_lines (ls : list str) : str :=
  match ls with
  | [] => []
  | [l] => l
  | l :: ls' => l ++ Char.LF :: join_lines ls'
  end.

(** [a in b]: [a] occurs in [b] as a substring. *)
Fixpoint starts_with (a b : str) : bool :=
  match a, b with
  | [], _ => true
  | x :: a', y :: b' => bool_decide (x = y) && starts_with a' b'
  | _ :: _, [] => false
  end.

Fixpoint contains (a b : str) : bool :=
  starts_with a b ||
  match b with
  | [] => false
  | _ :: b' => contains a b'
  end.

End Str.

(** ** Regular expressions

  The fragment of Python's [re] that the three patterns use: literals,
  [.], [\d], [\s], the lazy repetitions [.*?] and [.+?], named groups and
  the anchors.  [exec] is a backtracking matcher: the alternatives of a
  lazy repetition are tried shortest first and the first complete match
  wins, as in [re]. *)

Module Re.

Inductive cls : Type :=
| Lit (c : ascii)      (* the character itself *)
| Any                  (* [.]: anything but a newline *)
| Digit                (* [\d] *)
| Space.               (* [\s] *)

Definition cls_match (k : cls) (c : ascii) : bool :=
  match k with
  | Lit c' => bool_decide (c = c')
  | Any => negb (bool_decide (c = Char.LF))
  | Digit => Char.isdigit c
  | Space => Char.isspace c
  end.

Inductive t : Type :=
| Eps
| One (k : cls)
| Lazy (min : nat) (k : cls)   (* [k{min,}?] *)
| Cat (r1 r2 : t)
| Group (name : string) (r : t)
| Bol                          (* [^] *)
| Eol.                         (* [$] *)

(** The groups matched so far, the most recent first. *)
Abbreviation captures := (list (string * str)).

(** A continuation receives what the expression consumed, what is left
    of the subject, and the groups. *)
Definition cont := str -> str -> captures -> option captures.

(** [k{min,}?]: [acc] is what the repetition has read, [min] how many
    characters it still has to read.  Once it has read enough, the rest of
    the pattern is tried first, and one more character is read only when
    the rest fails. *)
Fixpoint lazy_loop (k : cls) (min : nat) (acc s : str) (caps : captures)
    (kont : cont) : option captures :=
  let one_more :=
    match s with
    | c :: s' =>
        if cls_match k c then lazy_loop k (pred min) (acc ++ [c]) s' caps kont
        else None
    | [] => None
    end in
  match min with
  | S _ => one_more
  | O =>
      match kont acc s caps with
      | Some r => Some r
      | None => one_more
      end
  end.

Fixpoint exec (r : t) (pos : nat) (s : str) (caps : captures) (kont : cont)
    : option captures :=
  match r with
  | Eps => kont [] s caps
  | One k =>
      match s with
      | c :: s' => if cls_match k c then kont [c] s' caps else None
      | [] => None
      end
  | Lazy min k => lazy_loop k min [] s caps kont
  | Cat r1 r2 =>
      exec r1 pos s caps (fun a1 s1 caps1 =>
        exec r2 (pos + length a1) s1 caps1 (fun a2 s2 caps2 =>
          kont (a1 ++ a2) s2 caps2))
  | Group name r' =>
      exec r' pos s caps (fun a s' caps' => kont a s' ((name, a) :: caps'))
  | Bol => if bool_decide (pos = 0) then kont [] s caps else None
  | Eol =>
      if bool_decide (s = []) || bool_decide (s = [Char.LF])
      then kont [] s caps else None
  end.

(** [pattern.match(s)]: a match that starts at the first character. *)
Definition match_ (r : t) (s : str) : option captures :=
  exec r 0 s [] (fun _ _ caps => Some caps).

(** [m.group(name)] *)
Fixpoint group (name : string) (caps : captures) : str :=
  match caps with
  | (n, v) :: caps' => if bool_decide (n = name) then v else group name caps'
  | [] => []
  end.

(** Builders for the patterns. *)
Fixpoint chars (s : str) : t :=
  match s with
  | [] => Eps
  | c :: s' => Cat (One (Lit c)) (chars s')
  end.

Definition text (s : string) : t := chars (lit s).

Fixpoint seq (rs : list t) : t :=
  match rs with
  | [] => Eps
  | r :: rs' => Cat r (seq rs')
  end.

Definition digits2 : t := Cat (One Digit) (One Digit).

End Re.

(** ** The format *)

Module Cfml.

Import Re.

(** [HEADER_RE = ^#\$\* date -\* (?P<date>.*?) \*-\s#\$\*$] *)
Definition HEADER_RE : Re.t :=
  seq [Bol; text "#$* date -* "; Group "date" (Lazy 0 Any);
       text " *-"; One Space; text "#$*"; Eol].

(** [MESSAGE_RE = ^@# (?P<time>\d{2}:\d{2}:\d{2}) #@ \$# (?P<receiver>.+?) #\$ \*# (?P<sender>.+?) #\* content -\*&\^# (?P<content>.+?) #\^&\*-$] *)
Definition MESSAGE_RE : Re.t :=
  seq [Bol; text "@# ";
       Group "time" (seq [digits2; text ":"; digits2; text ":"; digits2]);
       text " #@ ";
       text "$# "; Group "receiver" (Lazy 1 Any); text " #$ ";
       text "*# "; Group "sender" (Lazy 1 Any); text " #* ";
       text "content -*&^# "; Group "content" (Lazy 1 Any); text " #^&*-";
       Eol].

(** [END_RE = ^\*\$# end \*\$#$] *)
Definition END_RE : Re.t := seq [Bol; text "*$# end *$#"; Eol].

(** A message is a dict with the keys time, receiver, sender and content;
    a block is a dict with the keys date and messages. *)
Record message : Type := Message {
  time : str;
  receiver : str;
  sender : str;
  content : str
}.

Record block : Type := Block {
  date : str;
  messages : list message
}.

(** [self.blocks] *)
Abbreviation Store := (list block).

#[global] Instance message_eq_dec : EqDecision message.
Proof. solve_decision. Defined.
#[global] Instance block_eq_dec : EqDecision block.
Proof. solve_decision. Defined.

(** The [FormatError]s that the methods raise, one constructor per message. *)
Inductive FormatError : Type :=
| NewBlockBeforeEnd                  (* New date block started before 'end' marker. *)
| MessageBeforeHeader                (* Message found before date header. *)
| MissingField (key : string)        (* Missing field: {key} *)
| EndWithoutDate                     (* End marker found without starting date. *)
| InvalidLineFormat (line : str)     (* Invalid line format: {line} *)
| MissingEnd                         (* Missing 'end' marker for last date block. *)
| MissingRequiredField (field : string) (* Missing required field: {field} *)
| InvalidMessageIndex (index : Z)    (* Invalid message index: {index} *)
| NoSuchDateBlock (d : str)          (* No such date block: {date} *)
| InvalidEditField (key : string)    (* Invalid field for edit: {key} *)
| EmptyValue (key : string).         (* Empty value not allowed for {key} *)

(** How a call ends: it returns, or it raises. *)
Inductive outcome : Type :=
| Returns
| Raises (e : FormatError).

(** A method maps the store to the way the call ends and the store it
    leaves behind. *)
Definition method : Type := Store -> outcome * Store.

(** *** load *)

(** [[line.strip() for line in text.splitlines() if line.strip()]] *)
Definition stripped_lines (text : str) : list str :=
  Str.strip <$> filter (fun line => Str.strip line <> []) (Str.splitlines text).

(** The first key of [keys] whose group is empty. *)
Fixpoint first_missing (msg : captures) (keys : list string) : option string :=
  match keys with
  | [] => None
  | key :: keys' =>
      if Str.is_empty (group key msg) then Some key else first_missing msg keys'
  end.

(** The [for line in lines] loop and the check that follows it. *)
Fixpoint load_loop (lines : list str) (blocks : Store)
    (current_date : option str) (current_messages : list message)
    : outcome * Store :=
  match lines with
  | [] =>
      match current_date with
      | Some _ => (Raises MissingEnd, blocks)
      | None => (Returns, blocks)
      end
  | line :: lines' =>
      match match_ HEADER_RE line with
      | Some header =>
          match current_date with
          | Some _ => (Raises NewBlockBeforeEnd, blocks)
          | None => load_loop lines' blocks (Some (group "date" header)) []
          end
      | None =>
      match match_ MESSAGE_RE line with
      | Some msg =>
          match current_date with
          | None => (Raises MessageBeforeHeader, blocks)
          | Some _ =>
              match first_missing msg ["time"; "receiver"; "sender"; "content"]%string with
              | Some key => (Raises (MissingField key), blocks)
              | None =>
                  load_loop lines' blocks current_date
                    (current_messages ++
                       [Message (group "time" msg) (group "receiver" msg)
                                (group "sender" msg) (group "content" msg)])
              end
          end
      | None =>
      match match_ END_RE line with
      | Some _ =>
          match current_date with
          | None => (Raises EndWithoutDate, blocks)
          | Some d =>
              load_loop lines' (blocks ++ [Block d current_messages]) None []
          end
      | None => (Raises (InvalidLineFormat line), blocks)
      end
      end
      end
  end.

(** [load]: [self.blocks.clear()] comes first, so the blocks of [self] never
    reach the loop. *)
Definition load (text : str) : method :=
  fun self =>
    let cleared : Store := [] in
    load_loop (stripped_lines text) cleared None [].

(** *** dumps *)

Definition header_line (d : str) : str :=
  lit "#$* date -* " ++ d ++ lit " *- #$*".

Definition message_line (msg : message) : str :=
  lit "@# " ++ time msg ++ lit " #@ " ++
  lit "$# " ++ receiver msg ++ lit " #$ " ++
  lit "*# " ++ sender msg ++ lit " #* " ++
  lit "content -*&^# " ++ content msg ++ lit " #^&*-".

Definition end_line : str := lit "*$# end *$#".

(** The lines that one block adds to [output]. *)
Definition block_lines (b : block) : list str :=
  header_line (date b) :: (message_line <$> messages b) ++ [end_line].

Definition dumps (self : Store) : str :=
  Str.join_lines (self ≫= block_lines).

(** *** The operations on the store *)

(** The first field of [fields] whose value is empty. *)
Fixpoint first_empty (fields : list (string * str)) : option string :=
  match fields with
  | [] => None
  | (field, value) :: fields' =>
      if Str.is_empty value then Some field else first_empty fields'
  end.

(** The loop of [add_message] over [self.blocks]: the first block of that
    date gets the message; [None] when the loop ends without a [return]. *)
Fixpoint add_to_block (blocks : Store) (d : str) (msg : message) : option Store :=
  match blocks with
  | [] => None
  | b :: blocks' =>
      if bool_decide (date b = d)
      then Some (Block (date b) (messages b ++ [msg]) :: blocks')
      else (b ::.) <$> add_to_block blocks' d msg
  end.

Definition add_message (d t r s c : str) : method :=
  fun self =>
    match first_empty [("date", d); ("time", t); ("receiver", r);
                       ("sender", s); ("content", c)]%string with
    | Some field => (Raises (MissingRequiredField field), self)
    | None =>
        match add_to_block self d (Message t r s c) with
        | Some blocks => (Returns, blocks)
        | None => (Returns, self ++ [Block d [Message t r s c]])
        end
    end.

(** [self.blocks = [b for b in self.blocks if b["date"] != date]] *)
Definition delete_date (d : str) : method :=
  fun self => (Returns, filter (fun b => date b <> d) self).

(** [0 <= index < len(msgs)], on Python's integers. *)
Definition index_in_range (index : Z) (msgs : list message) : bool :=
  ((0 <=? index) && (index <? Z.of_nat (length msgs)))%Z.

Fixpoint delete_message_loop (blocks : Store) (d : str) (index : Z)
    : outcome * Store :=
  match blocks with
  | [] => (Raises (NoSuchDateBlock d), [])
  | b :: blocks' =>
      if bool_decide (date b = d) then
        if index_in_range index (messages b)
        then (Returns, Block (date b) (delete (Z.to_nat index) (messages b)) :: blocks')
        else (Raises (InvalidMessageIndex index), b :: blocks')
      else
        let (res, rest) := delete_message_loop blocks' d index in
        (res, b :: rest)
  end.

Definition delete_message (d : str) (index : Z) : method :=
  fun self => delete_message_loop self d index.

(** [msg[key] = value] for one of the four keys. *)
Definition set_item (msg : message) (key : string) (value : str) : message :=
  if bool_decide (key = "time"%string)
  then Message value (receiver msg) (sender msg) (content msg)
  else if bool_decide (key = "receiver"%string)
  then Message (time msg) value (sender msg) (content msg)
  else if bool_decide (key = "sender"%string)
  then Message (time msg) (receiver msg) value (content msg)
  else if bool_decide (key = "content"%string)
  then Message (time msg) (receiver msg) (sender msg) value
  else msg.

Definition edit_keys : list string :=
  ["time"; "receiver"; "sender"; "content"]%string.

(** The [for key in updates] loop: [updates] lists the items of the dict in
    its iteration order.  The message is updated as the loop goes, so it is
    returned along with the way the loop ends. *)
Fixpoint apply_updates (msg : message) (updates : list (string * str))
    : outcome * message :=
  match updates with
  | [] => (Returns, msg)
  | (key, value) :: updates' =>
      if bool_decide (key ∉ edit_keys)
      then (Raises (InvalidEditField key), msg)
      else if Str.is_empty value
      then (Raises (EmptyValue key), msg)
      else apply_updates (set_item msg key value) updates'
  end.

Fixpoint edit_message_loop (blocks : Store) (d : str) (index : Z)
    (updates : list (string * str)) : outcome * Store :=
  match blocks with
  | [] => (Raises (NoSuchDateBlock d), [])
  | b :: blocks' =>
      if bool_decide (date b = d) then
        if index_in_range index (messages b) then
          match messages b !! Z.to_nat index with
          | Some msg =>
              let (res, msg') := apply_updates msg updates in
              (res, Block (date b) (<[Z.to_nat index := msg']> (messages b)) :: blocks')
          | None => (Raises (InvalidMessageIndex index), b :: blocks')
          end
        else (Raises (InvalidMessageIndex index), b :: blocks')
      else
        let (res, rest) := edit_message_loop blocks' d index updates in
        (res, b :: rest)
  end.

Definition edit_message (d : str) (index : Z) (updates : list (string * str))
    : method :=
  fun self => edit_message_loop self d index updates.

Definition list_dates (self : Store) : list str := date <$> self.

(** [list_messages]: the messages of the first block of that date. *)
Fixpoint list_messages (self : Store) (d : str) : FormatError + list message :=
  match self with
  | [] => inl (NoSuchDateBlock d)
  | b :: blocks' =>
      if bool_decide (date b = d) then inr (messages b)
      else list_messages blocks' d
  end.

(** *** search_messages *)

(** An entry of the result: [{"date": block["date"], **msg}]. *)
Record hit : Type := Hit {
  hit_date : str;
  hit_message : message
}.

(** The truth value of an [Optional[str]] argument: [None] and the empty
    string are false. *)
Definition truthy (arg : option str) : bool :=
  match arg with
  | Some (_ :: _) => true
  | _ => false
  end.

(** [value != arg] *)
Definition differs (value : str) (arg : option str) : bool :=
  bool_decide (Some value <> arg).

(** [text not in value] *)
Definition not_in (arg : option str) (value : str) : bool :=
  match arg with
  | Some t => negb (Str.contains t value)
  | None => true
  end.

(** One turn of the inner loop: each [continue] leaves [results] as it is. *)
Definition search_step (sender_arg receiver_arg text_arg : option str)
    (b : block) (results : list hit) (msg : message) : list hit :=
  if truthy sender_arg && differs (sender msg) sender_arg then results
  else if truthy receiver_arg && differs (receiver msg) receiver_arg then results
  else if truthy text_arg && not_in text_arg (content msg) then results
  else results ++ [Hit (date b) msg].

Definition search_messages (sender_arg receiver_arg text_arg : option str)
    (self : Store) : list hit :=
  foldl (fun results b =>
           foldl (search_step sender_arg receiver_arg text_arg b) results (messages b))
        [] self.

End Cfml.

(** * The vocabulary of the properties *)

Module Spec.

Import Cfml.

(** No character of [s] is a line boundary. *)
Definition no_linebreak (s : str) : Prop :=
  Forall (fun c => Char.is_linebreak c = false) s.

(** A line as [load] sees it: not empty, free of line boundaries and
    unchanged by [strip]. *)
Definition clean (line : str) : Prop :=
  line <> [] /\ no_linebreak line /\ Str.strip line = line.

(** The shape of a time: [\d{2}:\d{2}:\d{2}]. *)
Definition is_time (t : str) : bool :=
  match t with
  | [a; b; c; d; e; f; g; h] =>
      Char.isdigit a && Char.isdigit b && bool_decide (c = ":"%char) &&
      Char.isdigit d && Char.isdigit e && bool_decide (f = ":"%char) &&
      Char.isdigit g && Char.isdigit h
  | _ => false
  end.

(** The groups of a match of [MESSAGE_RE] that captured the fields of [msg]. *)
Definition message_groups (msg : message) : Re.captures :=
  [("content", content msg); ("sender", sender msg);
   ("receiver", receiver msg); ("time", time msg)]%string.

(** A message that [load] reads back from the line [dumps] prints for it. *)
Definition reads_back (msg : message) : Prop :=
  clean (message_line msg) /\
  Re.match_ MESSAGE_RE (message_line msg) = Some (message_groups msg).

(** A block that [load] reads back from the lines [dumps] prints for it. *)
Definition block_reads_back (b : block) : Prop :=
  no_linebreak (date b) /\ Forall reads_back (messages b).

(** ** Sequences of calls *)

(** The arguments of one call of [add_message]. *)
Record add_args : Type := AddArgs {
  arg_date : str;
  arg_time : str;
  arg_receiver : str;
  arg_sender : str;
  arg_content : str
}.

Definition add_call (a : add_args) : method :=
  add_message (arg_date a) (arg_time a) (arg_receiver a) (arg_sender a)
    (arg_content a).

Definition nonempty_args (a : add_args) : Prop :=
  arg_date a <> [] /\ arg_time a <> [] /\ arg_receiver a <> [] /\
  arg_sender a <> [] /\ arg_content a <> [].

(** Arguments with a time of the shape of a time, no line boundary in any
    of them, and no [#] in the receiver and the sender, the character every
    delimiter of a message line is built on. *)
Definition plain_args (a : add_args) : Prop :=
  nonempty_args a /\ is_time (arg_time a) = true /\
  no_linebreak (arg_date a) /\ no_linebreak (arg_receiver a) /\
  no_linebreak (arg_sender a) /\ no_linebreak (arg_content a) /\
  ("#"%char ∉ arg_receiver a) /\ ("#"%char ∉ arg_sender a).

(** The store after the calls, each of which has to return. *)
Fixpoint add_all (calls : list add_args) (self : Store) : option Store :=
  match calls with
  | [] => Some self
  | a :: calls' =>
      match add_call a self with
      | (Returns, self') => add_all calls' self'
      | (Raises _, _) => None
      end
  end.

(** [load(dumps(store))] returns and yields the blocks of [store]. *)
Definition round_trips (store : Store) : Prop :=
  forall self, load (dumps store) self = (Returns, store).

(** A call of one of the operations that change the store. *)
Inductive call : Type :=
| LoadText (text : str)
| AddMessage (d t r s c : str)
| DeleteDate (d : str)
| DeleteMessage (d : str) (index : Z)
| EditMessage (d : str) (index : Z) (updates : list (string * str)).

Definition run (c : call) : method :=
  match c with
  | LoadText text => load text
  | AddMessage d t r s c => add_message d t r s c
  | DeleteDate d => delete_date d
  | DeleteMessage d index => delete_message d index
  | EditMessage d index updates => edit_message d index updates
  end.

(** The store that a sequence of calls leaves, whether they return or
    raise. *)
Definition run_all (calls : list call) (self : Store) : Store :=
  foldl (fun store c => (run c store).2) self calls.

Definition distinct_dates (self : Store) : Prop := NoDup (list_dates self).

(** The dates of the header lines of a text, in order. *)
Definition header_dates (text : str) : list str :=
  omap (fun line => Re.group "date" <$> Re.match_ HEADER_RE line)
       (stripped_lines text).

(** A [load] whose text repeats no date; the other calls are unconstrained. *)
Definition repeats_no_date (c : call) : Prop :=
  match c with
  | LoadText text => NoDup (header_dates text)
  | _ => True
  end.

(** ** Failure of [load] *)

(** After a failed [load] the store holds no block: it was emptied, or it
    is the store of before. *)
Definition load_all_or_nothing (text : str) (self : Store) : Prop :=
  forall e self', load text self = (Raises e, self') -> self' = [] \/ self' = self.

(** ** Search *)

(** [out] keeps the elements of [l] that satisfy [P], in their order. *)
Inductive selection {A : Type} (P : A -> Prop) : list A -> list A -> Prop :=
| selection_nil : selection P [] []
| selection_keep x l out :
    P x -> selection P l out -> selection P (x :: l) (x :: out)
| selection_skip x l out :
    ~ P x -> selection P l out -> selection P (x :: l) out.

(** Every message with its date, block after block. *)
Definition all_hits (self : Store) : list hit :=
  self ≫= fun b => Hit (date b) <$> messages b.

Definition occurs_in (t value : str) : Prop :=
  exists before after, value = before ++ t ++ after.

(** Every filter that is supplied matches. *)
Definition matches_supplied (sender_arg receiver_arg text_arg : option str)
    (msg : message) : Prop :=
  (forall a, sender_arg = Some a -> sender msg = a) /\
  (forall a, receiver_arg = Some a -> receiver msg = a) /\
  (forall a, text_arg = Some a -> occurs_in a (content msg)).

(** Every filter that is supplied and not empty matches. *)
Definition matches_nonempty (sender_arg receiver_arg text_arg : option str)
    (msg : message) : Prop :=
  (forall a, sender_arg = Some a -> a <> [] -> sender msg = a) /\
  (forall a, receiver_arg = Some a -> a <> [] -> receiver msg = a) /\
  (forall a, text_arg = Some a -> a <> [] -> occurs_in a (content msg)).

(** ** Edits *)

(** [msg[key]] *)
Definition get_item (msg : message) (key : string) : str :=
  if bool_decide (key = "time"%string) then time msg
  else if bool_decide (key = "receiver"%string) then receiver msg
  else if bool_decide (key = "sender"%string) then sender msg
  else if bool_decide (key = "content"%string) then content msg
  else [].

(** An item that [edit_message] accepts. *)
Definition valid_update (item : string * str) : Prop :=
  item.1 ∈ edit_keys /\ item.2 <> [].

(** The error that [edit_message] raises on an item it refuses. *)
Definition update_error (item : string * str) : option FormatError :=
  if bool_decide (item.1 ∉ edit_keys) then Some (InvalidEditField item.1)
  else if Str.is_empty item.2 then Some (EmptyValue item.1)
  else None.

(** The message after the items were written to it in order. *)
Definition write_all (msg : message) (items : list (string * str)) : message :=
  foldl (fun m item => set_item m item.1 item.2) msg items.

(** The first block of a date, with its position. *)
Definition first_block (self : Store) (d : str) : option (nat * block) :=
  list_find (fun b => date b = d) self.

End Spec.

(** * Concrete inputs *)

Module Examples.

Import Cfml Spec.

Definition nl : str := [Char.LF].

Definition day : str := lit "2024-01-01".

Definition hello : message :=
  Message (lit "09:00:00") (lit "Bob") (lit "Alice") (lit "hello").

(** One block with one message, and its text. *)
Definition store_hello : Store := [Block day [hello]].

Definition text_hello : str :=
  lit "#$* date -* 2024-01-01 *- #$*" ++ nl ++
  lit "@# 09:00:00 #@ $# Bob #$ *# Alice #* content -*&^# hello #^&*-" ++ nl ++
  lit "*$# end *$#".

(** A closed block followed by a line of no shape. *)
Definition text_closed_then_oops : str :=
  lit "#$* date -* 2024-01-01 *- #$*" ++ nl ++
  lit "*$# end *$#" ++ nl ++
  lit "oops".

(** A header whose date is empty: two spaces between [-*] and [*-]. *)
Definition text_empty_date : str :=
  lit "#$* date -*  *- #$*" ++ nl ++
  lit "*$# end *$#".

(** A call whose time is not empty and has not the shape of a time. *)
Definition call_noon : add_args :=
  AddArgs day (lit "noon") (lit "Bob") (lit "Alice") (lit "hello").

Definition store_noon : Store :=
  [Block day [Message (lit "noon") (lit "Bob") (lit "Alice") (lit "hello")]].

Definition call_hello : add_args :=
  AddArgs day (lit "09:00:00") (lit "Bob") (lit "Alice") (lit "hello").

End Examples.

(** * The shape of texts and of messages *)

Module Shape.

Import Cfml Spec.

(** The line that [dumps] prints for a line that [load] accepts: a header
    gets a space before its closing token, any other line is printed as it
    is. *)
Definition canonical (line : str) : str :=
  match Re.match_ HEADER_RE line with
  | Some header => header_line (Re.group "date" header)
  | None => line
  end.

(** No field of the message is empty. *)
Definition filled (msg : message) : Prop :=
  time msg <> [] /\ receiver msg <> [] /\ sender msg <> [] /\ content msg <> [].

Definition fields_filled (self : Store) : Prop :=
  Forall (fun b => Forall filled (messages b)) self.

(** The messages of the first block of a date, none when there is no such
    block. *)
Definition messages_of (self : Store) (d : str) : list message :=
  match list_messages self d with
  | inr msgs => msgs
  | inl _ => []
  end.

(** An argument that [search_messages] treats as omitted. *)
Definition omitted (arg : option str) : Prop := arg = None \/ arg = Some [].

(** A line of one of the three shapes. *)
Definition is_header (line : str) : Prop := is_Some (Re.match_ HEADER_RE line).
Definition is_message (line : str) : Prop := is_Some (Re.match_ MESSAGE_RE line).
Definition is_end (line : str) : Prop := is_Some (Re.match_ END_RE line).

(** The lines of the block that [load] has open. *)
Definition pending (cur : option str) (msgs : list message) : list str :=
  match cur with
  | Some d => header_line d :: (message_line <$> msgs)
  | None => []
  end.

(** A message as [load] builds them: a time of the shape DD:DD:DD and three
    more fields that are not empty, none with a line boundary. *)
Definition well_shaped (msg : message) : Prop :=
  is_time (time msg) = true /\ filled msg /\
  no_linebreak (receiver msg) /\ no_linebreak (sender msg) /\
  no_linebreak (content msg).

(** Calls after which the store can still be printed and read back: any
    [load], any deletion, and [add_message] with arguments that the format
    can carry. *)
Definition portable (c : call) : Prop :=
  match c with
  | LoadText _ => True
  | AddMessage d t r s c => plain_args (AddArgs d t r s c)
  | DeleteDate _ => True
  | DeleteMessage _ _ => True
  | EditMessage _ _ _ => False
  end.

(** ** Where [load] stops *)

(** The lines of a block that is still open: none, or a header line
    followed by message lines. *)
Definition open_lines (lines : list str) : Prop :=
  lines = [] \/
  exists h ms, lines = h :: ms /\ is_header h /\ Forall is_message ms.

(** [load] of [text] fails with [e] and leaves [blocks].  The lines of the
    text are cut in three: [closed], the lines up to the last end marker
    that was read, of which a [load] returns [blocks]; [open], the lines of
    the block that was open; and [rest], which starts with the line [bad]
    at which [load] raises [e].  When the text ends inside a block, [rest]
    is empty and [e] is [MissingEnd], the one error that is raised after
    the last line. *)
Definition stops_with (text : str) (e : FormatError) (blocks : Store) : Prop :=
  exists closed open rest,
    stripped_lines text = closed ++ open ++ rest /\
    load (Str.join_lines closed) [] = (Returns, blocks) /\
    open_lines open /\
    match rest with
    | [] => open <> [] /\ e = MissingEnd
    | bad :: _ =>
        e <> MissingEnd /\
        (load (Str.join_lines (closed ++ open ++ [bad])) []).1 = Raises e
    end.

(** ** What a message line can carry *)

(** The suffixes of [s] that are not empty, the longest first. *)
Fixpoint suffixes (s : str) : list str :=
  match s with
  | [] => []
  | _ :: s' => s :: suffixes s'
  end.

(** A copy of [delim] begins inside [field], at a character other than the
    first, when [field] is followed by [delim]: the copy lies in [field],
    or it begins in [field] and runs on into the [delim] that follows. *)
Definition begins_inside (delim field : str) : bool :=
  existsb (fun after => Str.starts_with delim (after ++ delim))
          (suffixes (tail field)).

(** What [message_line] prints after the receiver and after the sender. *)
Definition receiver_end : str := lit " #$ *# ".
Definition sender_end : str := lit " #* content -*&^# ".

(** Arguments that the format can carry: the time has the shape of a time,
    no argument holds a line boundary, and neither the receiver nor the
    sender hides a copy of the delimiter that follows it.  A [#] alone
    hides nothing. *)
Definition carried_args (a : add_args) : Prop :=
  is_time (arg_time a) = true /\
  no_linebreak (arg_date a) /\ no_linebreak (arg_receiver a) /\
  no_linebreak (arg_sender a) /\ no_linebreak (arg_content a) /\
  begins_inside receiver_end (arg_receiver a) = false /\
  begins_inside sender_end (arg_sender a) = false.

(** The message that a call of [add_message] stores. *)
Definition arg_message (a : add_args) : message :=
  Message (arg_time a) (arg_receiver a) (arg_sender a) (arg_content a).

End Shape.

(** * More concrete inputs *)

Module Samples.

Import Cfml Spec Examples Shape.

Definition next_day : str := lit "2024-01-02".

Definition reply : message :=
  Message (lit "09:00:05") (lit "Alice") (lit "Bob") (lit "hi").

(** A block of two messages. *)
Definition store_talk : Store := [Block day [hello; reply]].

(** The text of [text_hello], indented, with a tab in its header and a
    blank line. *)
Definition text_hello_loose : str :=
  lit "  #$* date -* 2024-01-01 *-" ++ [Char.chr 9] ++ lit "#$*" ++ nl ++
  nl ++
  lit "@# 09:00:00 #@ $# Bob #$ *# Alice #* content -*&^# hello #^&*-  " ++ nl ++
  lit "*$# end *$#" ++ nl.

(** A text that opens a block and never closes it. *)
Definition text_open : str := lit "#$* date -* 2024-01-02 *- #$*".

(** A failing [load], then calls that return and a [delete_message] that
    raises. *)
Definition calls_portable : list call :=
  [LoadText text_open;
   LoadText text_hello;
   AddMessage next_day (lit "10:00:00") (lit "Bob") (lit "Alice") (lit "# yo #");
   AddMessage day (lit "09:00:05") (lit "Alice") (lit "Bob") (lit "hi");
   AddMessage day (lit "09:00:09") (lit "Bob") (lit "Alice") (lit "bye #");
   DeleteMessage day 0;
   DeleteDate (lit "2024-01-03");
   DeleteMessage next_day 5].

(** The store that [calls_portable] leave. *)
Definition store_portable : Store :=
  [Block day [reply;
              Message (lit "09:00:09") (lit "Bob") (lit "Alice") (lit "bye #")];
   Block next_day
     [Message (lit "10:00:00") (lit "Bob") (lit "Alice") (lit "# yo #")]].

(** Two closed blocks, then a block that is open when a line of no shape
    comes. *)
Definition text_two_then_oops : str :=
  text_hello ++ nl ++
  lit "#$* date -* 2024-01-02 *- #$*" ++ nl ++
  lit "*$# end *$#" ++ nl ++
  lit "#$* date -* 2024-01-03 *- #$*" ++ nl ++
  lit "@# 09:00:05 #@ $# Alice #$ *# Bob #* content -*&^# hi #^&*-" ++ nl ++
  lit "oops" ++ nl ++
  lit "*$# end *$#".

Definition store_two : Store := [Block day [hello]; Block next_day []].

(** Two blocks of the same date, the second with a message. *)
Definition text_day_twice : str :=
  lit "#$* date -* 2024-01-01 *- #$*" ++ nl ++
  lit "*$# end *$#" ++ nl ++
  text_hello.

(** A receiver and a sender that hold [#], and a content that holds a
    delimiter. *)
Definition call_sharp : add_args :=
  AddArgs day (lit "09:00:05") (lit "Bob #1") (lit "C# dev")
          (lit "see #$ *# and #* content -*&^# there").

Definition store_sharp : Store :=
  [Block day [hello; arg_message call_sharp]].

End Samples.

(** * Properties of the string methods *)

Module StrFacts.

Import Str Spec.

Lemma LF_is_linebreak : Char.is_linebreak Char.LF = true.
Proof. reflexivity. Qed.

Lemma no_linebreak_not_LF s : no_linebreak s -> Forall (fun c => c <> Char.LF) s.
Proof.
  intros H. eapply Forall_impl; [exact H|]. intros c Hc ->.
  by rewrite LF_is_linebreak in Hc.
Qed.

Lemma no_linebreak_app s1 s2 :
  no_linebreak (s1 ++ s2) <-> no_linebreak s1 /\ no_linebreak s2.
Proof. apply Forall_app. Qed.

(** ** splitlines *)

Lemma splitlines_from_app cur l rest :
  no_linebreak l ->
  splitlines_from cur (l ++ rest) = splitlines_from (cur ++ l) rest.
Proof.
  intros Hl. revert cur. induction Hl as [|c l Hc _ IH]; intros cur.
  - by rewrite app_nil_r.
  - cbn [app splitlines_from]. rewrite Hc, IH. by rewrite <- app_assoc.
Qed.

Lemma splitlines_from_LF cur s :
  splitlines_from cur (Char.LF :: s) = cur :: splitlines_from [] s.
Proof. cbn [splitlines_from]. rewrite LF_is_linebreak. by destruct s. Qed.

Lemma splitlines_join ls :
  Forall (fun l => no_linebreak l /\ l <> []) ls ->
  splitlines (join_lines ls) = ls.
Proof.
  unfold splitlines. induction 1 as [|l ls [Hl Hne] Hls IH]; [done|].
  destruct ls as [|l' ls].
  - cbn [join_lines]. rewrite <- (app_nil_r l) at 1.
    rewrite splitlines_from_app by done. cbn. by destruct l.
  - change (join_lines (l :: l' :: ls)) with (l ++ Char.LF :: join_lines (l' :: ls)).
    rewrite splitlines_from_app by done. rewrite splitlines_from_LF.
    cbn [app]. by rewrite IH.
Qed.

(** The lines of any text are free of line boundaries. *)
Lemma splitlines_from_no_linebreak n : forall s cur,
  length s <= n -> no_linebreak cur ->
  Forall no_linebreak (splitlines_from cur s).
Proof.
  induction n as [|n IH]; intros s cur Hn Hcur.
  - destruct s; [|cbn in Hn; lia]. cbn.
    destruct cur; cbn; [constructor|by apply Forall_singleton].
  - destruct s as [|c s].
    { cbn. destruct cur; cbn; [constructor|by apply Forall_singleton]. }
    cbn in Hn. cbn [splitlines_from].
    destruct (Char.is_linebreak c) eqn:Hc.
    + constructor; [done|].
      destruct s as [|c' s]; [by constructor|].
      destruct (_ && _); apply IH; cbn in *; try lia; constructor.
    + apply IH; [lia|]. apply no_linebreak_app. split; [done|].
      by repeat constructor.
Qed.

Lemma splitlines_no_linebreak s : Forall no_linebreak (splitlines s).
Proof. by apply (splitlines_from_no_linebreak (length s)); [|constructor]. Qed.

(** ** strip *)

Lemma lstrip_head s c : head (lstrip s) = Some c -> Char.isspace c = false.
Proof.
  induction s as [|c' s IH]; [done|]. cbn [lstrip].
  destruct (Char.isspace c') eqn:E; [done|]. cbn. by intros [= <-].
Qed.

Lemma lstrip_id s :
  (forall c, head s = Some c -> Char.isspace c = false) -> lstrip s = s.
Proof. destruct s as [|c s]; [done|]. intros H. cbn. by rewrite (H c). Qed.

Lemma lstrip_suffix s : exists p, s = p ++ lstrip s.
Proof.
  induction s as [|c s [p IH]]; [by exists []|]. cbn [lstrip].
  destruct (Char.isspace c); [|by exists []].
  exists (c :: p). cbn. by rewrite <- IH.
Qed.

Lemma lstrip_last s c : last (lstrip s) = Some c -> last s = Some c.
Proof.
  destruct (lstrip_suffix s) as [p Hp]. intros H.
  rewrite Hp, last_app, H. done.
Qed.

Lemma lstrip_Forall (P : ascii -> Prop) s : Forall P s -> Forall P (lstrip s).
Proof.
  destruct (lstrip_suffix s) as [p Hp]. intros H.
  rewrite Hp in H. by apply Forall_app in H as [_ ?].
Qed.

Lemma strip_Forall (P : ascii -> Prop) s : Forall P s -> Forall P (strip s).
Proof.
  intros H. unfold strip, rstrip.
  by apply Forall_reverse, lstrip_Forall, Forall_reverse, lstrip_Forall.
Qed.

Lemma strip_head s c : head (strip s) = Some c -> Char.isspace c = false.
Proof.
  unfold strip, rstrip. rewrite head_reverse. intros H.
  apply lstrip_last in H. rewrite last_reverse in H. by apply lstrip_head in H.
Qed.

Lemma strip_last s c : last (strip s) = Some c -> Char.isspace c = false.
Proof. unfold strip, rstrip. rewrite last_reverse. apply lstrip_head. Qed.

(** [strip] changes nothing when neither end is white space. *)
Lemma strip_id s :
  (forall c, head s = Some c -> Char.isspace c = false) ->
  (forall c, last s = Some c -> Char.isspace c = false) ->
  strip s = s.
Proof.
  intros Hh Hl. unfold strip, rstrip. rewrite (lstrip_id s) by done.
  rewrite lstrip_id; [apply reverse_involutive|].
  intros c. rewrite head_reverse. apply Hl.
Qed.

Lemma strip_idemp s : strip (strip s) = strip s.
Proof. apply strip_id; [apply strip_head|apply strip_last]. Qed.

Lemma strip_ends s c c' :
  head s = Some c -> last s = Some c' ->
  Char.isspace c = false -> Char.isspace c' = false ->
  strip s = s.
Proof.
  intros Hh Hl Hc Hc'. apply strip_id; intros x Hx; congruence.
Qed.

(** ** The lines of [load] *)

Lemma stripped_lines_clean text : Forall clean (Cfml.stripped_lines text).
Proof.
  unfold Cfml.stripped_lines. apply Forall_fmap, Forall_forall.
  intros line Hin. apply list_elem_of_filter in Hin as [Hne Hin].
  split_and!; [done| |apply strip_idemp].
  apply strip_Forall.
  by eapply (proj1 (Forall_forall _ _) (splitlines_no_linebreak text)).
Qed.

Lemma filter_all {A} (P : A -> Prop) `{!forall x, Decision (P x)} (l : list A) :
  Forall P l -> filter P l = l.
Proof.
  induction 1 as [|x l Hx _ IH]; [done|].
  rewrite filter_cons_True by done. by rewrite IH.
Qed.

Lemma stripped_lines_join ls :
  Forall clean ls -> Cfml.stripped_lines (join_lines ls) = ls.
Proof.
  intros Hls. unfold Cfml.stripped_lines.
  rewrite splitlines_join.
  - rewrite filter_all.
    + induction Hls as [|l ls (_ & _ & Hl) _ IH]; [done|].
      cbn. by rewrite Hl, IH.
    + eapply Forall_impl; [exact Hls|]. intros l (Hne & _ & Hl). by rewrite Hl.
  - eapply Forall_impl; [exact Hls|]. by intros l (Hne & Hnb & _).
Qed.

End StrFacts.

(** * Properties of the matcher *)

Module ReFacts.

Import Re.

Lemma exec_cat r1 r2 pos s caps kont :
  exec (Cat r1 r2) pos s caps kont =
  exec r1 pos s caps (fun a1 s1 caps1 =>
    exec r2 (pos + length a1) s1 caps1 (fun a2 s2 caps2 =>
      kont (a1 ++ a2) s2 caps2)).
Proof. reflexivity. Qed.

(** A literal matches exactly itself. *)
Lemma exec_chars_app w pos s caps kont :
  exec (chars w) pos (w ++ s) caps kont = kont w s caps.
Proof.
  revert pos kont. induction w as [|c w IH]; intros pos kont; [done|].
  cbn [chars exec app cls_match]. rewrite bool_decide_eq_true_2 by done.
  by rewrite IH.
Qed.

Lemma exec_chars_inv w pos s caps kont res :
  exec (chars w) pos s caps kont = Some res ->
  exists s', s = w ++ s' /\ kont w s' caps = Some res.
Proof.
  revert pos s kont. induction w as [|c w IH]; intros pos s kont H.
  - by exists s.
  - cbn [chars exec cls_match] in H. destruct s as [|c' s]; [done|].
    case_bool_decide; [subst c'|done].
    apply IH in H as (s' & -> & H). by exists s'.
Qed.

Lemma exec_text_app w pos s caps kont :
  exec (text w) pos (lit w ++ s) caps kont = kont (lit w) s caps.
Proof. apply exec_chars_app. Qed.

Lemma exec_text_inv w pos s caps kont res :
  exec (text w) pos s caps kont = Some res ->
  exists s', s = lit w ++ s' /\ kont (lit w) s' caps = Some res.
Proof. apply exec_chars_inv. Qed.

Section lazy_repetition.

Context (k : cls) (caps : captures) (kont : cont).

(** What a lazy repetition hands to its continuation. *)
Lemma lazy_loop_inv min acc s res :
  lazy_loop k min acc s caps kont = Some res ->
  exists a s', s = a ++ s' /\ Forall (fun c => cls_match k c = true) a /\
    min <= length a /\ kont (acc ++ a) s' caps = Some res.
Proof.
  revert min acc. induction s as [|c s IH]; intros min acc H.
  - destruct min; cbn in H; [|done].
    destruct (kont acc [] caps) eqn:E; [|done].
    exists [], []. simplify_eq.
    split_and!; [done|constructor|cbn; lia|by rewrite app_nil_r].
  - assert (Hmore : (if cls_match k c
                     then lazy_loop k (pred min) (acc ++ [c]) s caps kont
                     else None) = Some res ->
              exists a s', c :: s = a ++ s' /\
                Forall (fun c => cls_match k c = true) a /\
                min <= length a /\ kont (acc ++ a) s' caps = Some res).
    { destruct (cls_match k c) eqn:Ec; [|done]. intros H'.
      apply IH in H' as (a & s' & -> & Ha & Hlen & Hk).
      exists (c :: a), s'. rewrite <- app_assoc in Hk.
      split_and!; [done|by constructor|cbn; lia|done]. }
    destruct min; cbn [lazy_loop] in H; [|by apply Hmore].
    destruct (kont acc (c :: s) caps) eqn:E; [|by apply Hmore].
    exists [], (c :: s). simplify_eq.
    split_and!; [done|constructor|cbn; lia|by rewrite app_nil_r].
Qed.

(** The shortest repetition that lets the rest match is the one taken. *)
Lemma lazy_loop_first min acc a s' res :
  Forall (fun c => cls_match k c = true) a ->
  min <= length a ->
  (forall a1 a2, a = a1 ++ a2 -> a2 <> [] -> min <= length a1 ->
     kont (acc ++ a1) (a2 ++ s') caps = None) ->
  kont (acc ++ a) s' caps = Some res ->
  lazy_loop k min acc (a ++ s') caps kont = Some res.
Proof.
  revert min acc. induction a as [|c a IH]; intros min acc Ha Hlen Hnone Hk.
  - assert (min = 0) as -> by (cbn in Hlen; lia).
    rewrite app_nil_r in Hk. destruct s'; cbn; by rewrite Hk.
  - inversion Ha as [|? ? Hc Ha']; subst.
    assert (Hmore : lazy_loop k (pred min) (acc ++ [c]) (a ++ s') caps kont = Some res).
    { apply IH; [done|cbn in Hlen; lia| |by rewrite <- app_assoc].
      intros a1 a2 -> Hne Hl. rewrite <- app_assoc. cbn.
      apply (Hnone (c :: a1) a2); [done|done|cbn; lia]. }
    destruct min; cbn [lazy_loop app]; rewrite Hc; [|done].
    assert (Hn : kont (acc ++ []) ((c :: a) ++ s') caps = None)
      by (apply Hnone; [done|done|cbn; lia]).
    rewrite app_nil_r in Hn. cbn [app] in Hn. by rewrite Hn.
Qed.

End lazy_repetition.

End ReFacts.

(** * Properties of the three patterns *)

Module PatternFacts.

Import Re Cfml Spec ReFacts StrFacts.

(** ** Small facts *)

Lemma eol_test_inv (s : str) :
  bool_decide (s = []) || bool_decide (s = [Char.LF]) = true ->
  s = [] \/ s = [Char.LF].
Proof.
  intros H. apply orb_true_iff in H as [H|H]; apply bool_decide_eq_true_1 in H; auto.
Qed.

Lemma any_not_LF a :
  Forall (fun c => cls_match Any c = true) a -> Forall (fun c => c <> Char.LF) a.
Proof.
  intros Ha. eapply Forall_impl; [exact Ha|]. intros c H. cbn in H.
  apply negb_true_iff, bool_decide_eq_false_1 in H. done.
Qed.

Lemma any_all a :
  Forall (fun c => c <> Char.LF) a -> Forall (fun c => cls_match Any c = true) a.
Proof.
  intros H. eapply Forall_impl; [exact H|]. intros c Hc. cbn.
  by rewrite bool_decide_eq_false_2.
Qed.

Lemma is_time_inv t :
  is_time t = true ->
  exists d1 d2 d3 d4 d5 d6,
    t = [d1; d2; ":"%char; d3; d4; ":"%char; d5; d6] /\
    Char.isdigit d1 = true /\ Char.isdigit d2 = true /\
    Char.isdigit d3 = true /\ Char.isdigit d4 = true /\
    Char.isdigit d5 = true /\ Char.isdigit d6 = true.
Proof.
  intros Ht.
  destruct t as [|d1 [|d2 [|c1 [|d3 [|d4 [|c2 [|d5 [|d6 [|? ?]]]]]]]]]; try done.
  cbn [is_time] in Ht.
  apply andb_prop in Ht as [Ht H6]. apply andb_prop in Ht as [Ht H5].
  apply andb_prop in Ht as [Ht Hc2]. apply andb_prop in Ht as [Ht H4].
  apply andb_prop in Ht as [Ht H3]. apply andb_prop in Ht as [Ht Hc1].
  apply andb_prop in Ht as [H1 H2].
  apply bool_decide_eq_true_1 in Hc1, Hc2. subst.
  by exists d1, d2, d3, d4, d5, d6.
Qed.

Lemma digit_not_linebreak c :
  Char.isdigit c = true -> Char.is_linebreak c = false.
Proof. destruct c as [[] [] [] [] [] [] [] []]; by vm_compute. Qed.

Lemma is_time_no_linebreak t : is_time t = true -> no_linebreak t.
Proof.
  intros H. apply is_time_inv in H
    as (d1 & d2 & d3 & d4 & d5 & d6 & -> & H1 & H2 & H3 & H4 & H5 & H6).
  repeat (apply List.Forall_cons; [by auto using digit_not_linebreak|]).
  constructor.
Qed.

Lemma exec_colon pos s caps kont :
  exec (text ":") pos (":"%char :: s) caps kont = kont (lit ":") s caps.
Proof. apply (exec_chars_app [":"%char]). Qed.

(** A field without [#] cannot hide the delimiter that follows it: a
    delimiter is a space, a [#] and more. *)
Lemma delimiter_not_inside (f2 delim rest rest' : str) (x : ascii) :
  f2 <> [] -> "#"%char ∉ f2 -> x <> "#"%char ->
  f2 ++ x :: "#"%char :: delim ++ rest <> x :: "#"%char :: delim ++ rest'.
Proof.
  intros Hne Hh Hx Heq. destruct f2 as [|y [|z f2]]; [done| |].
  - cbn in Heq. by simplify_eq.
  - cbn in Heq. simplify_eq. apply Hh. rewrite !elem_of_cons. auto.
Qed.

(** The closing token is the end of the line: it cannot stand earlier,
    whatever the field holds. *)
Lemma closing_token_last (f2 w w' tail : str) (y : ascii) :
  f2 <> [] -> length w = length w' ->
  last w = Some y -> y <> Char.LF ->
  tail = [] \/ tail = [Char.LF] ->
  f2 ++ w <> w' ++ tail.
Proof.
  intros Hne Hlen Hlast Hy Htail Heq.
  pose proof (f_equal length Heq) as Hl. rewrite !length_app in Hl.
  destruct Htail as [-> | ->]; cbn in Hl.
  - destruct f2; [done|cbn in Hl; lia].
  - apply (f_equal last) in Heq. rewrite last_app, Hlast, last_snoc in Heq.
    by simplify_eq.
Qed.

(** ** What a match tells about the line *)

(** One character of a class was read. *)
Ltac one_inv H c :=
  match type of H with
  | match ?s with [] => _ | _ :: _ => _ end = Some _ =>
      let E := fresh "H" c in
      destruct s as [|c s]; [done|];
      destruct (cls_match _ c) eqn:E in H; [|done]
  end.

(** The test of [$] passed. *)
Ltac eol_inv H tail Ht :=
  destruct (bool_decide (tail = []) || bool_decide (tail = [Char.LF])) eqn:Ht;
    [apply eol_test_inv in Ht|done].

(** A continuation that cannot succeed. *)
Ltac by_contradiction E :=
  match goal with
  | |- ?e = None => destruct e eqn:E; [exfalso|done]
  end.

Lemma header_match_inv l caps :
  match_ HEADER_RE l = Some caps ->
  exists d w tail,
    l = lit "#$* date -* " ++ d ++ lit " *-" ++ [w] ++ lit "#$*" ++ tail /\
    Char.isspace w = true /\ Forall (fun c => c <> Char.LF) d /\
    (tail = [] \/ tail = [Char.LF]) /\ caps = [("date"%string, d)].
Proof.
  unfold match_, HEADER_RE, seq. intros H. cbn [exec] in H.
  rewrite bool_decide_eq_true_2 in H by done.
  apply exec_text_inv in H as (s1 & -> & H).
  apply lazy_loop_inv in H as (d & s2 & -> & Hd & _ & H).
  apply exec_text_inv in H as (s3 & -> & H).
  one_inv H w.
  apply exec_text_inv in H as (tail & -> & H).
  eol_inv H tail Ht.
  exists d, w, tail. split_and!; [done|done|by apply any_not_LF|done|].
  by simplify_eq.
Qed.

Lemma message_match_inv l caps :
  match_ MESSAGE_RE l = Some caps ->
  exists t r s c tail,
    l = message_line (Message t r s c) ++ tail /\
    is_time t = true /\ r <> [] /\ s <> [] /\ c <> [] /\
    Forall (fun c => c <> Char.LF) r /\
    Forall (fun c => c <> Char.LF) s /\
    Forall (fun c => c <> Char.LF) c /\
    (tail = [] \/ tail = [Char.LF]) /\
    caps = message_groups (Message t r s c).
Proof.
  unfold match_, MESSAGE_RE, seq, digits2. intros H. cbn [exec] in H.
  rewrite bool_decide_eq_true_2 in H by done.
  apply exec_text_inv in H as (? & -> & H).
  one_inv H d1. one_inv H d2.
  apply exec_text_inv in H as (? & -> & H).
  one_inv H d3. one_inv H d4.
  apply exec_text_inv in H as (? & -> & H).
  one_inv H d5. one_inv H d6.
  apply exec_text_inv in H as (? & -> & H).
  apply exec_text_inv in H as (? & -> & H).
  apply lazy_loop_inv in H as (r & ? & -> & Hr & Hrlen & H).
  apply exec_text_inv in H as (? & -> & H).
  apply exec_text_inv in H as (? & -> & H).
  apply lazy_loop_inv in H as (s & ? & -> & Hs & Hslen & H).
  apply exec_text_inv in H as (? & -> & H).
  apply exec_text_inv in H as (? & -> & H).
  apply lazy_loop_inv in H as (c & ? & -> & Hc & Hclen & H).
  apply exec_text_inv in H as (tail & -> & H).
  eol_inv H tail Ht.
  exists [d1; d2; ":"%char; d3; d4; ":"%char; d5; d6], r, s, c, tail.
  split_and!.
  - unfold message_line; cbn [time receiver sender content].
    by rewrite <- !app_assoc.
  - cbn [cls_match] in Hd1, Hd2, Hd3, Hd4, Hd5, Hd6. unfold is_time.
    by rewrite Hd1, Hd2, Hd3, Hd4, Hd5, Hd6, !bool_decide_eq_true_2.
  - intros ->; cbn in Hrlen; lia.
  - intros ->; cbn in Hslen; lia.
  - intros ->; cbn in Hclen; lia.
  - by apply any_not_LF.
  - by apply any_not_LF.
  - by apply any_not_LF.
  - done.
  - cbn in H. by simplify_eq.
Qed.

Lemma end_match_inv l caps :
  match_ END_RE l = Some caps ->
  exists tail, l = end_line ++ tail /\ (tail = [] \/ tail = [Char.LF]).
Proof.
  unfold match_, END_RE, seq. intros H. cbn [exec] in H.
  rewrite bool_decide_eq_true_2 in H by done.
  apply exec_text_inv in H as (tail & -> & H).
  eol_inv H tail Ht. by exists tail.
Qed.

(** ** The groups of a match of [MESSAGE_RE] *)

Lemma group_message_groups m :
  group "time" (message_groups m) = time m /\
  group "receiver" (message_groups m) = receiver m /\
  group "sender" (message_groups m) = sender m /\
  group "content" (message_groups m) = content m.
Proof. done. Qed.

Lemma message_match_groups line msg :
  match_ MESSAGE_RE line = Some msg ->
  group "time" msg <> [] /\ group "receiver" msg <> [] /\
  group "sender" msg <> [] /\ group "content" msg <> [].
Proof.
  intros H. apply message_match_inv in H
    as (t & r & s & c & tail & _ & Ht & Hr & Hs & Hc & _ & _ & _ & _ & ->).
  apply is_time_inv in Ht as (? & ? & ? & ? & ? & ? & -> & _).
  by split_and!.
Qed.

(** The check of [load] for a missing field finds none. *)
Lemma message_match_no_missing line msg :
  match_ MESSAGE_RE line = Some msg ->
  first_missing msg ["time"; "receiver"; "sender"; "content"]%string = None.
Proof.
  intros H. apply message_match_groups in H as (Ht & Hr & Hs & Hc).
  cbn [first_missing].
  destruct (group "time" msg); [done|].
  destruct (group "receiver" msg); [done|].
  destruct (group "sender" msg); [done|].
  by destruct (group "content" msg).
Qed.

(** ** The lines that [dumps] prints match their pattern *)

Lemma header_match_line d :
  Forall (fun c => c <> Char.LF) d ->
  match_ HEADER_RE (header_line d) = Some [("date"%string, d)].
Proof.
  intros Hd. unfold match_, HEADER_RE, seq, header_line. cbn [exec].
  rewrite bool_decide_eq_true_2 by done.
  rewrite exec_text_app.
  apply lazy_loop_first; [by apply any_all|lia| |].
  - intros d1 d2 -> Hne _. by_contradiction E.
    apply exec_text_inv in E as (s3 & Heq & E).
    one_inv E w.
    apply exec_text_inv in E as (tail & -> & E).
    eol_inv E tail Ht.
    by apply (closing_token_last d2 (lit " *- #$*")
                (lit " *-" ++ w :: lit "#$*") tail "*") in Heq.
  - change (lit " *- #$*") with (lit " *-" ++ " "%char :: lit "#$*" ++ []).
    rewrite exec_text_app.
    change (cls_match Space " ") with true. cbn iota.
    by rewrite exec_text_app.
Qed.

Lemma message_match_line t r s c :
  is_time t = true -> r <> [] -> s <> [] -> c <> [] ->
  Forall (fun x => x <> Char.LF) r ->
  Forall (fun x => x <> Char.LF) s ->
  Forall (fun x => x <> Char.LF) c ->
  "#"%char ∉ r -> "#"%char ∉ s ->
  match_ MESSAGE_RE (message_line (Message t r s c)) =
    Some (message_groups (Message t r s c)).
Proof.
  intros Ht Hr Hs Hc Hrl Hsl Hcl Hrh Hsh.
  apply is_time_inv in Ht
    as (d1 & d2 & d3 & d4 & d5 & d6 & -> & H1 & H2 & H3 & H4 & H5 & H6).
  unfold match_, MESSAGE_RE, seq, digits2, message_line, message_groups.
  cbn [exec time receiver sender content].
  rewrite bool_decide_eq_true_2 by done.
  rewrite exec_text_app. cbn [app cls_match]. rewrite H1, H2.
  rewrite exec_colon, H3, H4, exec_colon, H5, H6.
  rewrite !exec_text_app.
  apply lazy_loop_first; [by apply any_all|destruct r; [done|cbn; lia]| |].
  { intros r1 r2 -> Hne _. by_contradiction E.
    apply exec_text_inv in E as (? & Heq & _).
    apply (delimiter_not_inside r2 (lit "$ ") _ _ " "%char) in Heq; [done|done| |done].
    rewrite not_elem_of_app in Hrh. tauto. }
  rewrite !exec_text_app.
  apply lazy_loop_first; [by apply any_all|destruct s; [done|cbn; lia]| |].
  { intros s1 s2 -> Hne _. by_contradiction E.
    apply exec_text_inv in E as (? & Heq & _).
    apply (delimiter_not_inside s2 (lit "* ") _ _ " "%char) in Heq; [done|done| |done].
    rewrite not_elem_of_app in Hsh. tauto. }
  rewrite !exec_text_app.
  apply lazy_loop_first; [by apply any_all|destruct c; [done|cbn; lia]| |].
  { intros c1 c2 -> Hne _. by_contradiction E.
    apply exec_text_inv in E as (tail & Heq & E).
    eol_inv E tail Htl.
    by apply (closing_token_last c2 (lit " #^&*-") (lit " #^&*-") tail "-") in Heq. }
  rewrite <- (app_nil_r (lit " #^&*-")). by rewrite exec_text_app.
Qed.

Lemma end_line_matches :
  match_ HEADER_RE end_line = None /\ match_ MESSAGE_RE end_line = None /\
  match_ END_RE end_line = Some [].
Proof. by vm_compute. Qed.

(** A header starts with [#] and a message line with [@]. *)
Lemma header_not_message m : match_ HEADER_RE (message_line m) = None.
Proof.
  by_contradiction E.
  apply header_match_inv in E as (d & w & tail & Heq & _).
  cbv [message_line lit list_ascii_of_string app] in Heq. discriminate.
Qed.

(** ** The lines that [dumps] prints are clean *)

Lemma header_line_clean d : no_linebreak d -> clean (header_line d).
Proof.
  intros Hd. split_and!.
  - done.
  - unfold header_line. rewrite !no_linebreak_app.
    split_and!; [|done|]; repeat constructor.
  - apply (strip_ends _ "#" "*"); [done| |done|done].
    unfold header_line. by rewrite !last_app.
Qed.

Lemma end_line_clean : clean end_line.
Proof. split_and!; [done|repeat constructor|by vm_compute]. Qed.

Lemma message_line_clean t r s c :
  no_linebreak t -> no_linebreak r -> no_linebreak s -> no_linebreak c ->
  clean (message_line (Message t r s c)).
Proof.
  intros Ht Hr Hs Hc. split_and!.
  - done.
  - unfold message_line. cbn [time receiver sender content].
    rewrite !no_linebreak_app. split_and!; try done; repeat constructor.
  - apply (strip_ends _ "@" "-"); [done| |done|done].
    unfold message_line. by rewrite !last_app.
Qed.

End PatternFacts.

(** * Properties of [load] and [dumps] *)

Module LoadFacts.

Import Re Cfml Spec ReFacts StrFacts PatternFacts.

(** ** From the printed lines back to the blocks *)

Lemma load_loop_header d lines blocks :
  no_linebreak d ->
  load_loop (header_line d :: lines) blocks None [] =
  load_loop lines blocks (Some d) [].
Proof.
  intros Hd. cbn [load_loop].
  by rewrite header_match_line by by apply no_linebreak_not_LF.
Qed.

Lemma load_loop_message msg lines blocks d msgs :
  reads_back msg ->
  load_loop (message_line msg :: lines) blocks (Some d) msgs =
  load_loop lines blocks (Some d) (msgs ++ [msg]).
Proof.
  intros [_ Hm]. cbn [load_loop].
  rewrite header_not_message, Hm.
  rewrite (message_match_no_missing _ _ Hm).
  by destruct msg.
Qed.

Lemma load_loop_end lines blocks d msgs :
  load_loop (end_line :: lines) blocks (Some d) msgs =
  load_loop lines (blocks ++ [Block d msgs]) None [].
Proof.
  cbn [load_loop].
  destruct end_line_matches as (-> & -> & ->). done.
Qed.

Lemma load_loop_messages msgs' lines blocks d msgs :
  Forall reads_back msgs' ->
  load_loop ((message_line <$> msgs') ++ lines) blocks (Some d) msgs =
  load_loop lines blocks (Some d) (msgs ++ msgs').
Proof.
  intros H. revert msgs. induction H as [|m msgs' Hm _ IH]; intros msgs.
  - by rewrite app_nil_r.
  - cbn [fmap list_fmap app]. rewrite load_loop_message by done.
    rewrite IH. by rewrite <- app_assoc.
Qed.

Lemma load_loop_blocks bs blocks :
  Forall block_reads_back bs ->
  load_loop (bs ≫= block_lines) blocks None [] = (Returns, blocks ++ bs).
Proof.
  intros H. revert blocks. induction H as [|b bs [Hd Hms] _ IH]; intros blocks.
  - cbn. by rewrite app_nil_r.
  - rewrite bind_cons. unfold block_lines at 1. cbn [app].
    rewrite load_loop_header by done.
    rewrite <- app_assoc. rewrite load_loop_messages by done.
    cbn [app]. rewrite load_loop_end, IH.
    rewrite <- app_assoc. by destruct b.
Qed.

Lemma block_lines_clean bs :
  Forall block_reads_back bs -> Forall clean (bs ≫= block_lines).
Proof.
  induction 1 as [|b bs [Hd Hms] _ IH]; [constructor|].
  rewrite bind_cons. unfold block_lines at 1.
  apply Forall_app. split; [|done].
  apply Forall_cons. split; [by apply header_line_clean|].
  apply Forall_app. split; [|apply Forall_singleton, end_line_clean].
  apply Forall_fmap. eapply Forall_impl; [exact Hms|]. by intros m [? _].
Qed.

(** [load] reads back what [dumps] prints for blocks that read back. *)
Lemma load_dumps bs self :
  Forall block_reads_back bs -> load (dumps bs) self = (Returns, bs).
Proof.
  intros H. unfold load, dumps.
  rewrite stripped_lines_join by by apply block_lines_clean.
  by rewrite load_loop_blocks.
Qed.

(** ** The blocks that [load] builds read back *)

Lemma load_loop_reads_back lines : forall blocks cur msgs res blocks',
  Forall clean lines ->
  Forall block_reads_back blocks ->
  (forall d, cur = Some d -> no_linebreak d) ->
  Forall reads_back msgs ->
  load_loop lines blocks cur msgs = (res, blocks') ->
  Forall block_reads_back blocks'.
Proof.
  induction lines as [|line lines IH]; intros blocks cur msgs res blocks' Hl Hb Hc Hm H.
  - cbn in H. destruct cur; by simplify_eq.
  - apply Forall_cons in Hl as [(Hne & Hnb & Hstrip) Hl].
    cbn [load_loop] in H.
    destruct (match_ HEADER_RE line) as [header|] eqn:Eh.
    { destruct cur; [by simplify_eq|].
      apply header_match_inv in Eh as (d & w & tail & -> & _ & _ & _ & ->).
      eapply IH in H; [done|done|done| |constructor].
      intros ? [= <-]. cbn.
      apply no_linebreak_app in Hnb as [_ Hnb].
      by apply no_linebreak_app in Hnb as [Hnb _]. }
    destruct (match_ MESSAGE_RE line) as [msg|] eqn:Em.
    { destruct cur as [d|]; [|by simplify_eq].
      rewrite (message_match_no_missing _ _ Em) in H.
      pose proof Em as Em'.
      apply message_match_inv in Em'
        as (t & r & s & c & tail & Hline & _ & _ & _ & _ & _ & _ & _ & Htail & ->).
      assert (tail = []) as ->.
      { destruct Htail as [->| ->]; [done|]. subst line.
        apply no_linebreak_app in Hnb as [_ Hnb].
        by inversion Hnb. }
      rewrite app_nil_r in Hline. subst line.
      eapply IH in H; [done|done|done|done|].
      apply Forall_app. split; [done|]. apply Forall_singleton.
      split; [done|]. exact Em. }
    destruct (match_ END_RE line) eqn:Ee; [|by simplify_eq].
    destruct cur as [d|]; [|by simplify_eq].
    eapply IH in H; [done|done| |done|constructor].
    apply Forall_app. split; [done|]. apply Forall_singleton.
    split; [by apply Hc|done].
Qed.

Lemma load_reads_back text self res blocks :
  load text self = (res, blocks) -> Forall block_reads_back blocks.
Proof.
  unfold load. intros H.
  eapply load_loop_reads_back in H; [done|apply stripped_lines_clean|constructor|done|constructor].
Qed.

End LoadFacts.

(** * Properties of the operations on the store *)

Module StoreFacts.

Import Re Cfml Spec StrFacts PatternFacts LoadFacts.

(** ** The loops over the blocks, by the first block of the date *)

Lemma first_block_cons b self d :
  first_block (b :: self) d =
  if bool_decide (date b = d) then Some (0, b)
  else prod_map S id <$> first_block self d.
Proof.
  unfold first_block. cbn [list_find].
  case_decide; [by rewrite bool_decide_eq_true_2|by rewrite bool_decide_eq_false_2].
Qed.

Lemma first_block_Some self d i b :
  first_block self d = Some (i, b) -> self !! i = Some b /\ date b = d.
Proof. intros H. apply list_find_Some in H. tauto. Qed.

Lemma first_block_None self d :
  first_block self d = None -> d ∉ list_dates self.
Proof.
  intros H Hin. apply list_find_None in H.
  apply list_elem_of_fmap in Hin as (b & -> & Hb).
  by eapply (proj1 (Forall_forall _ _) H).
Qed.

Lemma first_block_elem_of self d :
  d ∈ list_dates self -> exists i b, first_block self d = Some (i, b).
Proof.
  intros Hin. destruct (first_block self d) as [[i b]|] eqn:E; [by eauto|].
  by apply first_block_None in E.
Qed.

Lemma add_to_block_spec self d msg :
  add_to_block self d msg =
  match first_block self d with
  | Some (i, b) => Some (<[i := Block (date b) (messages b ++ [msg])]> self)
  | None => None
  end.
Proof.
  induction self as [|b self IH]; [done|].
  cbn [add_to_block]. rewrite first_block_cons.
  case_bool_decide; [done|]. rewrite IH.
  by destruct (first_block self d) as [[i b']|].
Qed.

Lemma delete_message_loop_spec self d index :
  delete_message_loop self d index =
  match first_block self d with
  | Some (i, b) =>
      if index_in_range index (messages b)
      then (Returns,
            <[i := Block (date b) (delete (Z.to_nat index) (messages b))]> self)
      else (Raises (InvalidMessageIndex index), self)
  | None => (Raises (NoSuchDateBlock d), self)
  end.
Proof.
  induction self as [|b self IH]; [done|].
  cbn [delete_message_loop]. rewrite first_block_cons.
  case_bool_decide; [done|]. rewrite IH.
  destruct (first_block self d) as [[i b']|]; [|done]. cbn.
  by destruct (index_in_range index (messages b')).
Qed.

Lemma edit_message_loop_spec self d index updates :
  edit_message_loop self d index updates =
  match first_block self d with
  | Some (i, b) =>
      match messages b !! Z.to_nat index with
      | Some msg =>
          if index_in_range index (messages b)
          then ((apply_updates msg updates).1,
                <[i := Block (date b)
                         (<[Z.to_nat index := (apply_updates msg updates).2]>
                            (messages b))]> self)
          else (Raises (InvalidMessageIndex index), self)
      | None => (Raises (InvalidMessageIndex index), self)
      end
  | None => (Raises (NoSuchDateBlock d), self)
  end.
Proof.
  induction self as [|b self IH]; [done|].
  cbn [edit_message_loop]. rewrite first_block_cons.
  case_bool_decide.
  - destruct (index_in_range index (messages b)), (messages b !! Z.to_nat index);
      try done.
    by destruct (apply_updates m updates).
  - rewrite IH. destruct (first_block self d) as [[i b']|]; [|done]. cbn.
    destruct (messages b' !! Z.to_nat index); [|done].
    by destruct (index_in_range index (messages b')).
Qed.

(** Replacing the messages of a block leaves the dates alone. *)
Lemma list_dates_insert self i b msgs :
  self !! i = Some b ->
  list_dates (<[i := Block (date b) msgs]> self) = list_dates self.
Proof.
  intros H. unfold list_dates. rewrite list_fmap_insert. cbn.
  apply list_insert_id. by rewrite list_lookup_fmap, H.
Qed.

(** ** Edits *)

Lemma apply_updates_app msg applied rest :
  Forall valid_update applied ->
  apply_updates msg (applied ++ rest) = apply_updates (write_all msg applied) rest.
Proof.
  intros H. revert msg. induction H as [|[k v] applied [Hk Hv] _ IH]; intros msg; [done|].
  cbn [app apply_updates]. cbn in Hk, Hv.
  rewrite bool_decide_eq_false_2 by (by intros Hn).
  destruct v; [done|]. cbn [Str.is_empty]. by rewrite IH.
Qed.

Lemma apply_updates_refused msg item rest e :
  update_error item = Some e ->
  apply_updates msg (item :: rest) = (Raises e, msg).
Proof.
  destruct item as [k v]. unfold update_error. cbn [apply_updates fst snd].
  case_bool_decide; [by intros [= <-]|].
  destruct (Str.is_empty v); [by intros [= <-]|done].
Qed.

Lemma get_set_item msg key value :
  key ∈ edit_keys -> get_item (set_item msg key value) key = value.
Proof.
  unfold edit_keys. rewrite !elem_of_cons, elem_of_nil.
  intros [->|[->|[->|[->|[]]]]]; done.
Qed.

Lemma get_set_item_ne msg key key' value :
  key <> key' -> get_item (set_item msg key' value) key = get_item msg key.
Proof.
  intros Hne. unfold set_item.
  repeat case_bool_decide; subst; try done;
    unfold get_item; repeat case_bool_decide; subst; done.
Qed.

Lemma write_all_other msg items key :
  key ∉ items.*1 -> get_item (write_all msg items) key = get_item msg key.
Proof.
  revert msg. induction items as [|[k v] items IH]; intros msg Hk; [done|].
  cbn in Hk. apply not_elem_of_cons in Hk as [Hne Hk].
  unfold write_all. cbn [foldl fst snd]. fold (write_all (set_item msg k v) items).
  rewrite IH by done. by apply get_set_item_ne.
Qed.

Lemma write_all_get msg items key value :
  NoDup items.*1 -> Forall valid_update items -> (key, value) ∈ items ->
  get_item (write_all msg items) key = value.
Proof.
  revert msg. induction items as [|[k v] items IH]; intros msg Hnd Hv Hin.
  - by apply elem_of_nil in Hin.
  - cbn in Hnd. apply NoDup_cons in Hnd as [Hk Hnd].
    apply Forall_cons in Hv as [[Hkv _] Hv]. cbn in Hkv.
    unfold write_all. cbn [foldl fst snd]. fold (write_all (set_item msg k v) items).
    apply elem_of_cons in Hin as [[= -> ->]|Hin].
    + rewrite write_all_other by done. by apply get_set_item.
    + by apply IH.
Qed.

(** ** Search *)

Lemma starts_with_spec a b :
  Str.starts_with a b = true <-> exists rest, b = a ++ rest.
Proof.
  revert b. induction a as [|x a IH]; intros b.
  - split; [by exists b|done].
  - destruct b as [|y b]; cbn [Str.starts_with].
    + split; [done|by intros [? ?]].
    + rewrite andb_true_iff, bool_decide_eq_true, IH. split.
      * intros [-> [rest ->]]. by exists rest.
      * intros [rest [= -> ->]]. eauto.
Qed.

Lemma contains_spec a b : Str.contains a b = true <-> occurs_in a b.
Proof.
  unfold occurs_in. induction b as [|y b IH]; cbn [Str.contains].
  - rewrite orb_false_r, starts_with_spec. split.
    + intros [rest H]. by exists [], rest.
    + intros (before & after & H).
      destruct before; [by exists after|done].
  - rewrite orb_true_iff, starts_with_spec, IH. split.
    + intros [[rest H]|(before & after & H)].
      * by exists [], rest.
      * exists (y :: before), after. by rewrite H.
    + intros (before & after & H). destruct before as [|x before].
      * left. by exists after.
      * right. injection H as -> ->. by exists before, after.
Qed.

(** One filter of the three: what the test of the loop decides. *)
Lemma sender_test arg value :
  truthy arg && differs value arg = false <->
  (forall a, arg = Some a -> a <> [] -> value = a).
Proof.
  unfold differs. destruct arg as [[|x a]|]; cbn [truthy andb].
  - split; [by intros _ ? [= <-]|done].
  - rewrite bool_decide_eq_false. split.
    + intros H ? [= <-] _. destruct (decide (value = x :: a)); [done|].
      destruct H. congruence.
    + intros H Hne. by rewrite (H (x :: a)) in Hne.
  - split; [done|done].
Qed.

Lemma text_test arg value :
  truthy arg && not_in arg value = false <->
  (forall a, arg = Some a -> a <> [] -> occurs_in a value).
Proof.
  destruct arg as [[|x a]|]; cbn [truthy andb not_in].
  - split; [by intros _ ? [= <-]|done].
  - rewrite negb_false_iff, contains_spec. split.
    + by intros H ? [= <-] _.
    + intros H. by apply H.
  - split; [done|done].
Qed.

Lemma search_step_spec sa ra ta b results msg :
  (matches_nonempty sa ra ta msg /\
   search_step sa ra ta b results msg = results ++ [Hit (date b) msg]) \/
  (~ matches_nonempty sa ra ta msg /\
   search_step sa ra ta b results msg = results).
Proof.
  unfold search_step, matches_nonempty.
  destruct (truthy sa && differs (sender msg) sa) eqn:Es.
  { right. split; [|done]. intros (H & _ & _).
    apply sender_test in H. congruence. }
  destruct (truthy ra && differs (receiver msg) ra) eqn:Er.
  { right. split; [|done]. intros (_ & H & _).
    apply sender_test in H. congruence. }
  destruct (truthy ta && not_in ta (content msg)) eqn:Et.
  { right. split; [|done]. intros (_ & _ & H).
    apply text_test in H. congruence. }
  left. split; [|done].
  split_and!; [by apply sender_test|by apply sender_test|by apply text_test].
Qed.

Lemma selection_app {A} (P : A -> Prop) l1 l2 out1 out2 :
  selection P l1 out1 -> selection P l2 out2 ->
  selection P (l1 ++ l2) (out1 ++ out2).
Proof.
  induction 1; intros H2; cbn; [done|by constructor; auto|by constructor; auto].
Qed.

(** A selection is determined by the list and the predicate. *)
Lemma selection_unique {A} (P : A -> Prop) l out1 out2 :
  selection P l out1 -> selection P l out2 -> out1 = out2.
Proof.
  intros H1. revert out2.
  induction H1 as [|x l out Hx _ IH|x l out Hx _ IH]; intros out2 H2.
  - by inversion H2.
  - inversion H2; subst; [by f_equal; apply IH|done].
  - inversion H2; subst; [done|by apply IH].
Qed.

Lemma selection_none {A} (P : A -> Prop) l out :
  Forall (fun x => ~ P x) l -> selection P l out -> out = [].
Proof.
  intros Hl H. induction H as [|x l out Hx _ IH|x l out Hx _ IH]; [done| |].
  - apply Forall_cons in Hl as [Hn _]. by destruct Hn.
  - apply Forall_cons in Hl as [_ Hl]. by apply IH.
Qed.

Lemma search_block sa ra ta b results msgs :
  exists out,
    foldl (search_step sa ra ta b) results msgs = results ++ out /\
    selection (fun h => matches_nonempty sa ra ta (hit_message h))
      (Hit (date b) <$> msgs) out.
Proof.
  revert results. induction msgs as [|msg msgs IH]; intros results.
  - exists []. split; [by rewrite app_nil_r|constructor].
  - cbn [foldl].
    destruct (search_step_spec sa ra ta b results msg) as [[Hm ->]|[Hm ->]].
    + destruct (IH (results ++ [Hit (date b) msg])) as (out & -> & Hsel).
      exists (Hit (date b) msg :: out). split; [by rewrite <- app_assoc|].
      by constructor.
    + destruct (IH results) as (out & -> & Hsel).
      exists out. split; [done|]. by constructor.
Qed.

Lemma search_blocks sa ra ta self results :
  exists out,
    foldl (fun results b => foldl (search_step sa ra ta b) results (messages b))
      results self = results ++ out /\
    selection (fun h => matches_nonempty sa ra ta (hit_message h))
      (all_hits self) out.
Proof.
  revert results. induction self as [|b self IH]; intros results.
  - exists []. split; [by rewrite app_nil_r|constructor].
  - cbn [foldl].
    destruct (search_block sa ra ta b results (messages b)) as (out1 & -> & Hsel1).
    destruct (IH (results ++ out1)) as (out2 & -> & Hsel2).
    exists (out1 ++ out2). split; [by rewrite <- app_assoc|].
    unfold all_hits. rewrite bind_cons. by apply selection_app.
Qed.

(** ** Distinct dates *)

Lemma add_message_distinct d t r s c self :
  distinct_dates self -> distinct_dates (add_message d t r s c self).2.
Proof.
  unfold distinct_dates, add_message. intros Hnd.
  destruct (first_empty _); [done|].
  rewrite add_to_block_spec.
  destruct (first_block self d) as [[i b]|] eqn:Hfb; cbn [snd].
  - apply first_block_Some in Hfb as [Hi _]. by rewrite list_dates_insert.
  - apply first_block_None in Hfb. unfold list_dates in *.
    rewrite fmap_app. apply NoDup_app. split_and!; [done| |apply NoDup_singleton].
    intros x Hx. cbn. rewrite list_elem_of_singleton. by intros ->.
Qed.

Lemma delete_date_distinct d self :
  distinct_dates self -> distinct_dates (delete_date d self).2.
Proof.
  unfold distinct_dates, delete_date, list_dates. cbn [snd]. intros Hnd.
  eapply sublist_NoDup; [exact Hnd|]. apply fmap_sublist, sublist_filter.
Qed.

Lemma delete_message_dates d index self :
  list_dates (delete_message d index self).2 = list_dates self.
Proof.
  unfold delete_message. rewrite delete_message_loop_spec.
  destruct (first_block self d) as [[i b]|] eqn:Hfb; [|done].
  apply first_block_Some in Hfb as [Hi _].
  destruct (index_in_range _ _); [|done]. by apply list_dates_insert.
Qed.

Lemma edit_message_dates d index updates self :
  list_dates (edit_message d index updates self).2 = list_dates self.
Proof.
  unfold edit_message. rewrite edit_message_loop_spec.
  destruct (first_block self d) as [[i b]|] eqn:Hfb; [|done].
  apply first_block_Some in Hfb as [Hi _].
  destruct (messages b !! _); [|done].
  destruct (index_in_range _ _); [|done]. by apply list_dates_insert.
Qed.

(** The dates that [load] leaves are an initial segment of the dates of the
    header lines. *)
Lemma load_loop_dates lines : forall blocks cur msgs res blocks',
  load_loop lines blocks cur msgs = (res, blocks') ->
  list_dates blocks' `prefix_of`
    list_dates blocks ++ option_list cur ++
    omap (fun line => group "date" <$> match_ HEADER_RE line) lines.
Proof.
  induction lines as [|line lines IH]; intros blocks cur msgs res blocks' H.
  - cbn in H. destruct cur; simplify_eq; by apply prefix_app_r.
  - cbn [load_loop] in H. cbn [omap list_omap].
    destruct (match_ HEADER_RE line) as [header|] eqn:Eh; cbn [fmap option_fmap option_map].
    { destruct cur; [simplify_eq; by apply prefix_app_r|].
      apply IH in H. by cbn in *. }
    destruct (match_ MESSAGE_RE line) as [msg|] eqn:Em.
    { destruct cur as [d|]; [|simplify_eq; by apply prefix_app_r].
      destruct (first_missing _ _); [simplify_eq; by apply prefix_app_r|].
      by apply IH in H. }
    destruct (match_ END_RE line); [|simplify_eq; by apply prefix_app_r].
    destruct cur as [d|]; [|simplify_eq; by apply prefix_app_r].
    apply IH in H. unfold list_dates in H. rewrite fmap_app in H.
    cbn in *. by rewrite <- app_assoc in H.
Qed.

Lemma load_dates text self :
  list_dates (load text self).2 `prefix_of` header_dates text.
Proof.
  unfold load, header_dates.
  destruct (load_loop _ _ _ _) as [res blocks'] eqn:H.
  by apply load_loop_dates in H.
Qed.

Lemma load_distinct text self :
  NoDup (header_dates text) -> distinct_dates (load text self).2.
Proof.
  intros Hnd. destruct (load_dates text self) as [k Hk].
  rewrite Hk in Hnd. by apply NoDup_app in Hnd as [? _].
Qed.

Lemma run_distinct c self :
  repeats_no_date c -> distinct_dates self -> distinct_dates (run c self).2.
Proof.
  destruct c; cbn [run repeats_no_date]; intros Hc Hnd.
  - by apply load_distinct.
  - by apply add_message_distinct.
  - by apply delete_date_distinct.
  - unfold distinct_dates. by rewrite delete_message_dates.
  - unfold distinct_dates. by rewrite edit_message_dates.
Qed.

(** ** Stores built by [add_message] *)

Lemma plain_reads_back a :
  plain_args a ->
  reads_back (Message (arg_time a) (arg_receiver a) (arg_sender a) (arg_content a)).
Proof.
  intros ((_ & _ & Hr & Hs & Hc) & Ht & _ & Hrl & Hsl & Hcl & Hrh & Hsh). split.
  - apply message_line_clean; auto using is_time_no_linebreak.
  - apply message_match_line; auto using no_linebreak_not_LF.
Qed.

Lemma add_call_reads_back a self :
  plain_args a -> Forall block_reads_back self ->
  exists self', add_call a self = (Returns, self') /\ Forall block_reads_back self'.
Proof.
  intros Ha Hself. pose proof (plain_reads_back a Ha) as Hm.
  destruct Ha as ((Hd & Ht & Hr & Hs & Hc) & _ & Hdl & _).
  unfold add_call, add_message.
  destruct a as [d t r s c]. cbn [arg_date arg_time arg_receiver arg_sender arg_content] in *.
  assert (first_empty [("date", d); ("time", t); ("receiver", r);
                       ("sender", s); ("content", c)]%string = None) as ->
    by by destruct d, t, r, s, c.
  rewrite add_to_block_spec.
  destruct (first_block self d) as [[i b]|] eqn:Hfb.
  - eexists. split; [done|].
    apply first_block_Some in Hfb as [Hi _].
    apply Forall_insert; [done|].
    pose proof (proj1 (Forall_lookup _ _) Hself i b Hi) as [Hbd Hbm].
    split; [done|]. cbn. apply Forall_app. split; [done|by apply Forall_singleton].
  - eexists. split; [done|].
    apply Forall_app. split; [done|]. apply Forall_singleton.
    split; [done|by apply Forall_singleton].
Qed.


End StoreFacts.

(** * More properties of the operations and of [load] *)

Module MoreFacts.

Import Re Cfml Spec Shape.
Import StrFacts ReFacts PatternFacts LoadFacts StoreFacts.

(** ** Blocks by date *)

Lemma list_messages_spec self d :
  list_messages self d =
  match first_block self d with
  | Some (_, b) => inr (messages b)
  | None => inl (NoSuchDateBlock d)
  end.
Proof.
  induction self as [|b self IH]; [done|].
  cbn [list_messages]. rewrite first_block_cons.
  case_bool_decide; [done|]. rewrite IH.
  by destruct (first_block self d) as [[i b']|].
Qed.

Lemma first_block_insert self d i b msgs :
  first_block self d = Some (i, b) ->
  first_block (<[i := Block (date b) msgs]> self) d = Some (i, Block (date b) msgs).
Proof.
  revert i. induction self as [|b0 self IH]; intros i; [done|].
  rewrite first_block_cons. case_bool_decide as Hd.
  - intros [= <- <-]. change (<[0:=?x]> (b0 :: self)) with (x :: self).
    by rewrite first_block_cons, bool_decide_eq_true_2.
  - destruct (first_block self d) as [[j b']|] eqn:E; [|done].
    intros [= <- <-].
    change (<[S j:=?x]> (b0 :: self)) with (b0 :: <[j:=x]> self).
    rewrite first_block_cons, bool_decide_eq_false_2 by done.
    by rewrite (IH j).
Qed.

Lemma first_block_insert_ne self d d' i b msgs :
  d' <> d -> first_block self d = Some (i, b) ->
  list_messages (<[i := Block (date b) msgs]> self) d' = list_messages self d'.
Proof.
  intros Hne. revert i. induction self as [|b0 self IH]; intros i; [done|].
  rewrite first_block_cons. case_bool_decide as Hd.
  - intros [= <- <-]. cbn. rewrite !bool_decide_eq_false_2; [done|congruence..].
  - destruct (first_block self d) as [[j b']|] eqn:E; [|done].
    intros [= <- <-]. cbn. case_bool_decide; [done|]. by apply IH.
Qed.

Lemma list_messages_app_new self d d' msgs :
  list_messages (self ++ [Block d msgs]) d' =
  match list_messages self d' with
  | inr ms => inr ms
  | inl e => if bool_decide (d = d') then inr msgs else inl e
  end.
Proof.
  induction self as [|b self IH]; cbn [app list_messages date messages].
  - by destruct (bool_decide (d = d')).
  - destruct (bool_decide (date b = d')); [done|apply IH].
Qed.

Lemma first_empty_None d t r s c :
  d <> [] -> t <> [] -> r <> [] -> s <> [] -> c <> [] ->
  first_empty [("date", d); ("time", t); ("receiver", r);
               ("sender", s); ("content", c)]%string = None.
Proof. by destruct d, t, r, s, c. Qed.

Lemma list_messages_filter self d d' :
  list_messages (filter (fun b => date b <> d) self) d' =
  if bool_decide (d' = d) then inl (NoSuchDateBlock d') else list_messages self d'.
Proof.
  induction self as [|b self IH]; [by case_bool_decide|].
  rewrite filter_cons. cbn [list_messages].
  destruct (decide (date b <> d)) as [Hb|Hb].
  - cbn [list_messages]. destruct (bool_decide (date b = d')) eqn:E; [|done].
    apply bool_decide_eq_true_1 in E. rewrite bool_decide_eq_false_2; congruence.
  - assert (date b = d) as <- by (by destruct (decide (date b = d))).
    rewrite IH. case_bool_decide as E1; [done|].
    rewrite bool_decide_eq_false_2; congruence.
Qed.

Lemma apply_updates_all msg updates :
  Forall valid_update updates ->
  apply_updates msg updates = (Returns, write_all msg updates).
Proof.
  intros H. rewrite <- (app_nil_r updates) at 1.
  by rewrite apply_updates_app.
Qed.

Lemma not_listed_first_block self d :
  d ∉ list_dates self -> first_block self d = None.
Proof.
  intros Hd. destruct (first_block self d) as [[i b]|] eqn:E; [|done].
  apply first_block_Some in E as [Hi <-]. destruct Hd.
  apply list_elem_of_fmap. exists b. split; [done|].
  by eapply list_elem_of_lookup_2.
Qed.

Lemma delete_message_loop_app_new self d index msgs :
  d ∉ list_dates self ->
  delete_message_loop (self ++ [Block d msgs]) d index =
  if index_in_range index msgs
  then (Returns, self ++ [Block d (delete (Z.to_nat index) msgs)])
  else (Raises (InvalidMessageIndex index), self ++ [Block d msgs]).
Proof.
  induction self as [|b self IH]; intros Hd.
  - cbn. rewrite bool_decide_eq_true_2 by done.
    by destruct (index_in_range index msgs).
  - cbn in Hd. apply not_elem_of_cons in Hd as [Hne Hd].
    cbn [app delete_message_loop].
    rewrite bool_decide_eq_false_2 by done. rewrite IH by done.
    by destruct (index_in_range index msgs).
Qed.

(** ** The lines of a text that [load] accepts *)

Lemma clean_tail_nil line body tail :
  clean line -> line = body ++ tail -> tail = [] \/ tail = [Char.LF] -> tail = [].
Proof.
  intros (_ & Hnb & _) -> [->| ->]; [done|].
  apply no_linebreak_app in Hnb as [_ Hnb]. by inversion Hnb.
Qed.

Lemma load_loop_lines lines : forall blocks cur msgs blocks',
  Forall clean lines ->
  load_loop lines blocks cur msgs = (Returns, blocks') ->
  blocks' ≫= block_lines =
    (blocks ≫= block_lines) ++ pending cur msgs ++ (canonical <$> lines).
Proof.
  induction lines as [|line lines IH]; intros blocks cur msgs blocks' Hl H.
  - cbn in H. destruct cur; simplify_eq. cbn. by rewrite app_nil_r.
  - apply Forall_cons in Hl as [Hline Hl].
    cbn [load_loop] in H. cbn [fmap list_fmap]. unfold canonical at 1.
    destruct (match_ HEADER_RE line) as [header|] eqn:Eh.
    { destruct cur; [done|]. apply IH in H; [|done]. by rewrite H. }
    destruct (match_ MESSAGE_RE line) as [msg|] eqn:Em.
    { destruct cur as [d|]; [|done].
      rewrite (message_match_no_missing _ _ Em) in H.
      apply IH in H; [|done]. rewrite H. f_equal. cbn [pending].
      apply message_match_inv in Em
        as (t & r & s & c & tail & Hline' & _ & _ & _ & _ & _ & _ & _ & Htail & ->).
      pose proof (clean_tail_nil _ _ _ Hline Hline' Htail) as ->.
      rewrite app_nil_r in Hline'. subst line. cbn.
      rewrite fmap_app. cbn. by rewrite <- app_assoc. }
    destruct (match_ END_RE line) eqn:Ee; [|done].
    destruct cur as [d|]; [|done].
    apply IH in H; [|done]. rewrite H.
    apply end_match_inv in Ee as (tail & Hline' & Htail).
    pose proof (clean_tail_nil _ _ _ Hline Hline' Htail) as ->.
    rewrite app_nil_r in Hline'. subst line.
    rewrite bind_app, <- app_assoc. f_equal.
    cbn [mbind list_bind pending block_lines date messages app].
    rewrite app_nil_r. cbn [app]. by rewrite <- app_assoc.
Qed.

Lemma load_loop_shapes lines : forall blocks cur msgs blocks',
  Forall clean lines ->
  load_loop lines blocks cur msgs = (Returns, blocks') ->
  Forall (fun line => is_header line \/ is_message line \/ line = end_line) lines.
Proof.
  induction lines as [|line lines IH]; intros blocks cur msgs blocks' Hl H;
    [constructor|].
  apply Forall_cons in Hl as [Hline Hl]. cbn [load_loop] in H.
  unfold is_header, is_message.
  destruct (match_ HEADER_RE line) as [header|] eqn:Eh.
  { destruct cur; [done|]. apply Forall_cons. split; [by eauto|by eapply IH]. }
  destruct (match_ MESSAGE_RE line) as [msg|] eqn:Em.
  { destruct cur as [d|]; [|done].
    destruct (first_missing _ _); [done|].
    apply Forall_cons. split; [by eauto|by eapply IH]. }
  destruct (match_ END_RE line) eqn:Ee; [|done].
  destruct cur as [d|]; [|done].
  apply Forall_cons. split; [|by eapply IH].
  apply end_match_inv in Ee as (tail & Hline' & Htail).
  pose proof (clean_tail_nil _ _ _ Hline Hline' Htail) as ->.
  rewrite app_nil_r in Hline'. auto.
Qed.

Lemma block_lines_nil bs : bs ≫= block_lines = [] -> bs = [].
Proof. by destruct bs. Qed.

Lemma block_lines_last bs b : last ((bs ++ [b]) ≫= block_lines) = Some end_line.
Proof.
  rewrite bind_app. cbn [mbind list_bind]. rewrite app_nil_r.
  unfold block_lines at 2. rewrite app_comm_cons, !app_assoc.
  apply last_snoc.
Qed.

Lemma canonical_end line : canonical line = end_line -> line = end_line.
Proof.
  unfold canonical. destruct (match_ HEADER_RE line); [|done].
  intros H. cbv [header_line lit list_ascii_of_string app] in H. 
  cbv [end_line lit list_ascii_of_string] in H. discriminate.
Qed.

Lemma canonical_header line d :
  clean line -> canonical line = header_line d -> is_header line.
Proof.
  unfold canonical, is_header. intros (_ & Hnb & _).
  destruct (match_ HEADER_RE line) eqn:E; [by eauto|].
  intros ->. unfold header_line in Hnb.
  apply no_linebreak_app in Hnb as [_ Hnb].
  apply no_linebreak_app in Hnb as [Hnb _].
  by rewrite header_match_line in E by by apply no_linebreak_not_LF.
Qed.

(** ** White space *)

Lemma splitlines_from_Forall (P : ascii -> Prop) n : forall s cur,
  length s <= n -> Forall P cur -> Forall P s ->
  Forall (Forall P) (Str.splitlines_from cur s).
Proof.
  induction n as [|n IH]; intros s cur Hn Hcur Hs.
  - destruct s; [|cbn in Hn; lia]. cbn.
    destruct cur; cbn; [constructor|by apply Forall_singleton].
  - destruct s as [|c s].
    { cbn. destruct cur; cbn; [constructor|by apply Forall_singleton]. }
    cbn in Hn. apply Forall_cons in Hs as [Hc Hs]. cbn [Str.splitlines_from].
    destruct (Char.is_linebreak c).
    + apply Forall_cons. split; [done|].
      destruct s as [|c' s]; [by constructor|].
      apply Forall_cons in Hs as [Hc' Hs'].
      destruct (_ && _).
      * apply IH; [cbn in Hn; lia|constructor|done].
      * apply IH; [cbn [length] in *; lia|constructor|by apply Forall_cons].
    + apply IH; [lia| |done]. apply Forall_app. split; [done|].
      by apply Forall_singleton.
Qed.

Lemma lstrip_blank s :
  Forall (fun c => Char.isspace c = true) s -> Str.lstrip s = [].
Proof. induction 1 as [|c s Hc _ IH]; [done|]. cbn. by rewrite Hc. Qed.

Lemma strip_blank s :
  Forall (fun c => Char.isspace c = true) s -> Str.strip s = [].
Proof. intros H. unfold Str.strip, Str.rstrip. by rewrite (lstrip_blank s). Qed.

Lemma stripped_lines_blank text :
  Forall (fun c => Char.isspace c = true) text -> stripped_lines text = [].
Proof.
  intros H. unfold stripped_lines.
  assert (Hlines : Forall (Forall (fun c => Char.isspace c = true))
                     (Str.splitlines text)).
  { apply (splitlines_from_Forall _ (length text)); [done|constructor|done]. }
  induction Hlines as [|l ls Hl _ IH]; [done|].
  rewrite filter_cons. rewrite decide_False; [done|].
  intros Hne. by rewrite strip_blank in Hne.
Qed.

(** ** The messages of a store *)

Lemma reads_back_well_shaped msg : reads_back msg -> well_shaped msg.
Proof.
  intros [(_ & Hnb & _) Hm].
  apply message_match_inv in Hm
    as (t & r & s & c & tail & _ & Ht & Hr & Hs & Hc & _ & _ & _ & _ & Hg).
  destruct msg as [t' r' s' c']. unfold message_groups in Hg. cbn in Hg.
  simplify_eq. unfold well_shaped, filled. cbn [time receiver sender content].
  unfold message_line in Hnb. cbn [time receiver sender content] in Hnb.
  rewrite !no_linebreak_app in Hnb.
  destruct Hnb as (_ & _ & _ & _ & Hrl & _ & _ & Hsl & _ & _ & Hcl & _).
  split_and!; try done.
  apply is_time_inv in Ht as (? & ? & ? & ? & ? & ? & -> & _). done.
Qed.

Lemma well_shaped_filled msg : well_shaped msg -> filled msg.
Proof. by intros (_ & ? & _). Qed.

Lemma filter_Forall {A} (P Q : A -> Prop) `{!forall x, Decision (P x)} (l : list A) :
  Forall Q l -> Forall Q (filter P l).
Proof.
  intros HQ. apply Forall_forall. intros x Hx.
  apply list_elem_of_filter in Hx as [_ Hx].
  by eapply (proj1 (Forall_forall _ _) HQ).
Qed.

Lemma set_item_filled msg key value :
  filled msg -> value <> [] -> filled (set_item msg key value).
Proof.
  intros (? & ? & ? & ?) Hv. unfold set_item, filled.
  repeat case_bool_decide; by split_and!.
Qed.

Lemma apply_updates_filled updates : forall msg,
  filled msg -> filled (apply_updates msg updates).2.
Proof.
  induction updates as [|[key value] updates IH]; intros msg Hm; [done|].
  cbn [apply_updates]. case_bool_decide; [done|].
  destruct value as [|x value]; [done|]. cbn [Str.is_empty].
  apply IH. by apply set_item_filled.
Qed.

Lemma run_filled c self :
  fields_filled self -> fields_filled (run c self).2.
Proof.
  unfold fields_filled. intros Hself. destruct c as [text|d t r s c|d|d index|d index updates];
    cbn [run].
  - destruct (load text self) as [res blocks] eqn:Hload. cbn [snd].
    apply load_reads_back in Hload.
    eapply Forall_impl; [exact Hload|]. intros b [_ Hb].
    eapply Forall_impl; [exact Hb|]. intros m Hm.
    by apply well_shaped_filled, reads_back_well_shaped.
  - unfold add_message.
    destruct (first_empty _) eqn:E; [done|].
    assert (Hm : filled (Message t r s c)).
    { unfold filled. cbn. destruct d, t, r, s, c; done. }
    rewrite add_to_block_spec.
    destruct (first_block self d) as [[i b]|] eqn:Hfb; cbn [snd].
    + apply first_block_Some in Hfb as [Hi _].
      apply Forall_insert; [done|]. cbn.
      apply Forall_app. split; [|by apply Forall_singleton].
      by apply (proj1 (Forall_lookup _ _) Hself i b).
    + apply Forall_app. split; [done|].
      apply Forall_singleton. by apply Forall_singleton.
  - cbn. by apply filter_Forall.
  - unfold delete_message. rewrite delete_message_loop_spec.
    destruct (first_block self d) as [[i b]|] eqn:Hfb; [|done].
    apply first_block_Some in Hfb as [Hi _].
    destruct (index_in_range _ _); [|done]. cbn [snd].
    apply Forall_insert; [done|]. cbn. apply Forall_delete.
    by apply (proj1 (Forall_lookup _ _) Hself i b).
  - unfold edit_message. rewrite edit_message_loop_spec.
    destruct (first_block self d) as [[i b]|] eqn:Hfb; [|done].
    apply first_block_Some in Hfb as [Hi _].
    destruct (messages b !! Z.to_nat index) as [msg|] eqn:Hmsg; [|done].
    destruct (index_in_range _ _); [|done]. cbn [snd].
    pose proof (proj1 (Forall_lookup _ _) Hself i b Hi) as Hb. cbn in Hb.
    apply Forall_insert; [done|]. cbn. apply Forall_insert; [done|].
    apply apply_updates_filled.
    by apply (proj1 (Forall_lookup _ _) Hb _ _ Hmsg).
Qed.

(** ** Printing and searching *)

Lemma join_lines_nil l ls : l <> [] -> Str.join_lines (l :: ls) <> [].
Proof. destruct l; [done|]. by destruct ls. Qed.

Lemma selection_all {A} (P : A -> Prop) l out :
  Forall P l -> selection P l out -> out = l.
Proof.
  intros Hl H. induction H as [|x l out Hx _ IH|x l out Hx _ IH]; [done| |].
  - apply Forall_cons in Hl as [_ Hl]. f_equal. by apply IH.
  - apply Forall_cons in Hl as [Hp _]. by destruct Hx.
Qed.

Lemma run_reads_back c self :
  portable c -> Forall block_reads_back self ->
  Forall block_reads_back (run c self).2.
Proof.
  intros Hc Hself.
  destruct c as [text|d t r s c|d|d index|d index updates]; cbn [run portable] in *.
  - destruct (load text self) as [res blocks] eqn:Hload.
    by apply load_reads_back in Hload.
  - destruct (add_call_reads_back _ self Hc Hself) as (self' & Hadd & Hself').
    unfold add_call in Hadd. cbn in Hadd. by rewrite Hadd.
  - cbn. by apply filter_Forall.
  - unfold delete_message. rewrite delete_message_loop_spec.
    destruct (first_block self d) as [[i b]|] eqn:Hfb; [|done].
    apply first_block_Some in Hfb as [Hi _].
    destruct (index_in_range _ _); [|done]. cbn [snd].
    pose proof (proj1 (Forall_lookup _ _) Hself i b Hi) as [Hd Hb].
    apply Forall_insert; [done|]. split; [done|]. cbn. by apply Forall_delete.
  - done.
Qed.

Lemma load_loop_all_dates lines : forall blocks cur msgs blocks',
  load_loop lines blocks cur msgs = (Returns, blocks') ->
  list_dates blocks' =
    list_dates blocks ++ option_list cur ++
    omap (fun line => group "date" <$> match_ HEADER_RE line) lines.
Proof.
  induction lines as [|line lines IH]; intros blocks cur msgs blocks' H.
  - cbn in H. destruct cur; simplify_eq. cbn. by rewrite app_nil_r.
  - cbn [load_loop] in H. cbn [omap list_omap].
    destruct (match_ HEADER_RE line) as [header|] eqn:Eh; cbn [fmap option_fmap option_map].
    { destruct cur; [done|]. by apply IH in H. }
    destruct (match_ MESSAGE_RE line) as [msg|] eqn:Em.
    { destruct cur as [d|]; [|done].
      destruct (first_missing _ _); [done|]. by apply IH in H. }
    destruct (match_ END_RE line); [|done].
    destruct cur as [d|]; [|done].
    apply IH in H. unfold list_dates in H. rewrite fmap_app in H.
    cbn in *. by rewrite <- app_assoc in H.
Qed.

(** ** Canonical lines *)

Lemma canonical_match line :
  clean line -> match_ HEADER_RE (canonical line) = match_ HEADER_RE line.
Proof.
  intros (_ & Hnb & _). unfold canonical.
  destruct (match_ HEADER_RE line) as [header|] eqn:E; [|done].
  apply header_match_inv in E as (d & w & tail & -> & _ & Hd & _ & ->).
  by apply header_match_line.
Qed.

Lemma canonical_not_header line :
  match_ HEADER_RE line = None -> canonical line = line.
Proof. unfold canonical. by intros ->. Qed.

Lemma canonical_clean line : clean line -> clean (canonical line).
Proof.
  intros Hl. unfold canonical.
  destruct (match_ HEADER_RE line) as [header|] eqn:E; [|done].
  apply header_match_inv in E as (d & w & tail & -> & _ & _ & _ & ->).
  apply header_line_clean. destruct Hl as (_ & Hnb & _).
  apply no_linebreak_app in Hnb as [_ Hnb].
  by apply no_linebreak_app in Hnb as [Hnb _].
Qed.

Lemma load_loop_canonical lines : forall blocks cur msgs,
  Forall clean lines ->
  load_loop (canonical <$> lines) blocks cur msgs = load_loop lines blocks cur msgs.
Proof.
  induction lines as [|line lines IH]; intros blocks cur msgs Hl; [done|].
  apply Forall_cons in Hl as [Hline Hl].
  cbn [fmap list_fmap load_loop]. rewrite canonical_match by done.
  destruct (match_ HEADER_RE line) as [header|] eqn:Eh.
  { destruct cur; [done|]. by apply IH. }
  rewrite (canonical_not_header _ Eh).
  destruct (match_ MESSAGE_RE line) as [msg|].
  { destruct cur; [|done]. destruct (first_missing _ _); [done|]. by apply IH. }
  destruct (match_ END_RE line); [|done].
  destruct cur; [|done]. by apply IH.
Qed.

(** ** Texts put one after the other *)

Lemma load_loop_closed_msgs lines blocks msgs :
  load_loop lines blocks None msgs = load_loop lines blocks None [].
Proof.
  destruct lines as [|line lines]; [done|]. cbn [load_loop].
  destruct (match_ HEADER_RE line); [done|].
  destruct (match_ MESSAGE_RE line); [done|].
  by destruct (match_ END_RE line).
Qed.

Lemma load_loop_app lines1 : forall lines2 blocks cur msgs blocks',
  load_loop lines1 blocks cur msgs = (Returns, blocks') ->
  load_loop (lines1 ++ lines2) blocks cur msgs = load_loop lines2 blocks' None [].
Proof.
  induction lines1 as [|line lines1 IH]; intros lines2 blocks cur msgs blocks' H.
  - cbn in H. destruct cur; simplify_eq. apply load_loop_closed_msgs.
  - cbn [load_loop app] in *.
    destruct (match_ HEADER_RE line); [destruct cur; [done|by apply IH]|].
    destruct (match_ MESSAGE_RE line).
    { destruct cur; [|done]. destruct (first_missing _ _); [done|]. by apply IH. }
    destruct (match_ END_RE line); [|done].
    destruct cur; [|done]. by apply IH.
Qed.

Lemma load_loop_before lines : forall before blocks cur msgs,
  load_loop lines (before ++ blocks) cur msgs =
  ((load_loop lines blocks cur msgs).1, before ++ (load_loop lines blocks cur msgs).2).
Proof.
  induction lines as [|line lines IH]; intros before blocks cur msgs.
  - cbn. by destruct cur.
  - cbn [load_loop].
    destruct (match_ HEADER_RE line); [destruct cur; [done|by apply IH]|].
    destruct (match_ MESSAGE_RE line).
    { destruct cur; [|done]. destruct (first_missing _ _); [done|]. by apply IH. }
    destruct (match_ END_RE line); [|done].
    destruct cur; [|done]. rewrite <- app_assoc. by apply IH.
Qed.


(** The lines that [load] keeps of a list of lines. *)
Lemma kept_cons line lines :
  Str.strip <$> filter (fun l => Str.strip l <> []) (line :: lines) =
  (if decide (Str.strip line <> []) then [Str.strip line] else []) ++
  (Str.strip <$> filter (fun l => Str.strip l <> []) lines).
Proof. rewrite filter_cons. by destruct (decide _). Qed.

Lemma kept_last cur :
  Str.strip <$> filter (fun l => Str.strip l <> [])
    (if Str.is_empty cur then [] else [cur]) =
  if decide (Str.strip cur <> []) then [Str.strip cur] else [].
Proof.
  destruct cur as [|c cur]; [done|]. cbn [Str.is_empty].
  rewrite kept_cons. by rewrite app_nil_r.
Qed.

Lemma kept_lines_app n t2 : forall t1 cur,
  length t1 <= n ->
  Str.strip <$> filter (fun l => Str.strip l <> [])
    (Str.splitlines_from cur (t1 ++ Char.LF :: t2)) =
  (Str.strip <$> filter (fun l => Str.strip l <> []) (Str.splitlines_from cur t1)) ++
  (Str.strip <$> filter (fun l => Str.strip l <> []) (Str.splitlines t2)).
Proof.
  induction n as [|n IH]; intros t1 cur Hn.
  - destruct t1; [|cbn in Hn; lia]. cbn [app].
    rewrite splitlines_from_LF, kept_cons. cbn [Str.splitlines_from].
    by rewrite kept_last.
  - destruct t1 as [|c t1].
    { cbn [app]. rewrite splitlines_from_LF, kept_cons. cbn [Str.splitlines_from].
      by rewrite kept_last. }
    cbn [length] in Hn. cbn [app Str.splitlines_from].
    destruct (Char.is_linebreak c) eqn:Hc; [|apply IH; lia].
    rewrite !kept_cons, <- app_assoc. f_equal.
    destruct t1 as [|c' t1].
    + cbn [app]. destruct (bool_decide (c = Char.CR) && bool_decide (Char.LF = Char.LF)).
      * done.
      * rewrite splitlines_from_LF, kept_cons. done.
    + cbn [app]. destruct (bool_decide (c = Char.CR) && bool_decide (c' = Char.LF)).
      * apply IH. cbn [length] in Hn. lia.
      * apply (IH (c' :: t1)). cbn [length] in *. lia.
Qed.

Lemma stripped_lines_app t1 t2 :
  stripped_lines (t1 ++ Char.LF :: t2) = stripped_lines t1 ++ stripped_lines t2.
Proof. unfold stripped_lines. by apply (kept_lines_app (length t1)). Qed.


End MoreFacts.

(** * Where a failing [load] stops *)

Module StopFacts.

Import Re Cfml Spec Shape.
Import StrFacts ReFacts PatternFacts LoadFacts MoreFacts.

(** A message line is no header line. *)
Lemma message_not_header line :
  is_message line -> match_ HEADER_RE line = None.
Proof.
  intros [m Hm]. by_contradiction E.
  apply header_match_inv in E as (? & ? & ? & -> & _).
  apply message_match_inv in Hm as (? & ? & ? & ? & ? & Heq & _).
  cbv [message_line lit list_ascii_of_string app] in Heq. discriminate.
Qed.

(** Message lines are added to the block that is open. *)
Lemma load_loop_message_lines ms : forall blocks d msgs,
  Forall is_message ms ->
  exists msgs', forall rest,
    load_loop (ms ++ rest) blocks (Some d) msgs =
    load_loop rest blocks (Some d) msgs'.
Proof.
  induction ms as [|l ms IH]; intros blocks d msgs Hms.
  - by exists msgs.
  - inversion Hms as [|? ? Hl Hms']; subst.
    pose proof (message_not_header _ Hl) as Eh. destruct Hl as [m Em].
    destruct (IH blocks d
      (msgs ++ [Message (group "time" m) (group "receiver" m)
                        (group "sender" m) (group "content" m)]) Hms')
      as (msgs' & Hmsgs').
    exists msgs'. intros rest. cbn [load_loop app].
    by rewrite Eh, Em, (message_match_no_missing _ _ Em), Hmsgs'.
Qed.

(** The lines of an open block leave a block open, unless there are none. *)
Lemma load_loop_open open blocks :
  open_lines open ->
  exists cur msgs, (cur = None <-> open = []) /\
    forall rest, load_loop (open ++ rest) blocks None [] =
                 load_loop rest blocks cur msgs.
Proof.
  intros [->|(h & ms & -> & [hdr Hh] & Hms)].
  - by exists None, [].
  - destruct (load_loop_message_lines ms blocks (group "date" hdr) [] Hms)
      as (msgs' & Hmsgs').
    exists (Some (group "date" hdr)), msgs'. split; [done|].
    intros rest. cbn [load_loop app]. by rewrite Hh, Hmsgs'.
Qed.

(** An error other than [MissingEnd] is raised at a line, and the lines
    after it are not read. *)
Lemma load_loop_raise_at bad rest blocks cur msgs e :
  e <> MissingEnd ->
  (load_loop [bad] blocks cur msgs).1 = Raises e ->
  load_loop (bad :: rest) blocks cur msgs = (Raises e, blocks).
Proof.
  intros He H. cbn [load_loop] in *.
  destruct (match_ HEADER_RE bad).
  { destruct cur; cbn in H; by simplify_eq. }
  destruct (match_ MESSAGE_RE bad).
  { destruct cur; [|cbn in H; by simplify_eq].
    destruct (first_missing _ _); cbn in H; by simplify_eq. }
  destruct (match_ END_RE bad); [|cbn in H; by simplify_eq].
  destruct cur; cbn in H; by simplify_eq.
Qed.

(** The cut of the lines at the point where the loop fails. *)
Lemma load_loop_stops lines : forall closed open blocks cur msgs e blocks',
  load_loop closed [] None [] = (Returns, blocks) ->
  open_lines open ->
  (cur = None <-> open = []) ->
  (forall rest, load_loop (open ++ rest) blocks None [] =
                load_loop rest blocks cur msgs) ->
  load_loop lines blocks cur msgs = (Raises e, blocks') ->
  exists closed' open' rest,
    closed ++ open ++ lines = closed' ++ open' ++ rest /\
    load_loop closed' [] None [] = (Returns, blocks') /\
    open_lines open' /\
    match rest with
    | [] => open' <> [] /\ e = MissingEnd
    | bad :: _ =>
        e <> MissingEnd /\
        (load_loop (closed' ++ open' ++ [bad]) [] None []).1 = Raises e
    end.
Proof.
  induction lines as [|line lines IH];
    intros closed open blocks cur msgs e blocks' Hclosed Hopen Hcur Hinv H.
  - cbn in H. destruct cur as [d|]; [|done]. simplify_eq.
    exists closed, open, []. split_and!; [done|done|done| |done].
    intros Hnil. by apply Hcur in Hnil.
  - assert (Hstop : forall e', e' <> MissingEnd ->
      load_loop [line] blocks cur msgs = (Raises e', blocks) ->
      (Raises e', blocks) = (Raises e, blocks') ->
      exists closed' open' rest,
        closed ++ open ++ line :: lines = closed' ++ open' ++ rest /\
        load_loop closed' [] None [] = (Returns, blocks') /\
        open_lines open' /\
        match rest with
        | [] => open' <> [] /\ e = MissingEnd
        | bad :: _ =>
            e <> MissingEnd /\
            (load_loop (closed' ++ open' ++ [bad]) [] None []).1 = Raises e
        end).
    { intros e' He' Hline [= <- <-].
      exists closed, open, (line :: lines).
      split_and!; [done|done|done|done|].
      by rewrite (load_loop_app _ _ _ _ _ _ Hclosed), Hinv, Hline. }
    cbn [load_loop] in H, Hstop.
    destruct (match_ HEADER_RE line) as [header|] eqn:Eh.
    { destruct cur as [d|]; [eapply Hstop; [| |exact H]; done|].
      assert (open = []) as -> by (by apply Hcur).
      eapply (IH closed [line]) in H as (closed' & open' & rest & Heq & ?);
        [|done| |done|].
      - by exists closed', open', rest.
      - right. exists line, []. split_and!; [done|by eexists|constructor].
      - intros rest. cbn [app load_loop]. by rewrite Eh. }
    destruct (match_ MESSAGE_RE line) as [msg|] eqn:Em.
    { destruct cur as [d|]; [|eapply Hstop; [| |exact H]; done].
      destruct (first_missing _ _) eqn:Ef; [eapply Hstop; [| |exact H]; done|].
      destruct Hopen as [->|(h & ms & -> & Hh & Hms)]; [by destruct Hcur as [_ Hc]; discriminate Hc|].
      eapply (IH closed (h :: ms ++ [line])) in H
        as (closed' & open' & rest & Heq & ?); [|done| |done|].
      - exists closed', open', rest. split; [|done].
        rewrite <- Heq. cbn [app]. by rewrite <- !app_assoc.
      - right. exists h, (ms ++ [line]). split_and!; [done|done|].
        apply Forall_app. split; [done|]. apply Forall_singleton. by eexists.
      - intros rest.
        change ((h :: ms ++ [line]) ++ rest) with (h :: (ms ++ [line]) ++ rest).
        rewrite <- app_assoc.
        change (h :: ms ++ [line] ++ rest) with ((h :: ms) ++ line :: rest).
        rewrite Hinv. cbn [load_loop]. by rewrite Eh, Em, Ef. }
    destruct (match_ END_RE line) eqn:Ee; [|eapply Hstop; [| |exact H]; done].
    destruct cur as [d|]; [|eapply Hstop; [| |exact H]; done].
    eapply (IH (closed ++ open ++ [line]) []) in H
      as (closed' & open' & rest & Heq & ?); [| |by left|done|done].
    + exists closed', open', rest. split; [|done].
      rewrite <- Heq. cbn [app]. by rewrite <- !app_assoc.
    + rewrite (load_loop_app _ _ _ _ _ _ Hclosed), Hinv.
      cbn [load_loop]. by rewrite Eh, Em, Ee.
Qed.

(** Both ways between a failure of [load] and the cut of its lines. *)
Lemma load_stops text self e blocks :
  load text self = (Raises e, blocks) -> stops_with text e blocks.
Proof.
  unfold load. intros H.
  eapply (load_loop_stops _ [] []) in H
    as (closed & open & rest & Heq & Hclosed & Hopen & Hrest);
    [|done|by left|done|done].
  cbn [app] in Heq.
  pose proof (stripped_lines_clean text) as Hclean. rewrite Heq in Hclean.
  exists closed, open, rest. unfold load.
  split_and!; [done| |done|].
  - rewrite stripped_lines_join; [done|].
    by apply Forall_app in Hclean as [? _].
  - destruct rest as [|bad rest]; [done|].
    destruct Hrest as [He Hbad]. split; [done|].
    rewrite stripped_lines_join; [done|].
    apply Forall_app in Hclean as [Hc Hclean].
    apply Forall_app in Hclean as [Ho Hclean].
    inversion Hclean; subst.
    rewrite !Forall_app. split_and!; [done|done|by apply Forall_singleton].
Qed.

Lemma stops_load text self e blocks :
  stops_with text e blocks -> load text self = (Raises e, blocks).
Proof.
  intros (closed & open & rest & Heq & Hclosed & Hopen & Hrest).
  pose proof (stripped_lines_clean text) as Hclean. rewrite Heq in Hclean.
  apply Forall_app in Hclean as [Hc Hclean].
  apply Forall_app in Hclean as [Ho Hr].
  unfold load in *. rewrite stripped_lines_join in Hclosed by done.
  rewrite Heq, (load_loop_app _ _ _ _ _ _ Hclosed).
  destruct (load_loop_open open blocks Hopen) as (cur & msgs & Hcur & Hinv).
  rewrite Hinv. destruct rest as [|bad rest].
  - destruct Hrest as [Hne ->]. cbn. destruct cur; [done|].
    destruct Hne. by apply Hcur.
  - destruct Hrest as [He Hbad]. inversion Hr; subst.
    rewrite stripped_lines_join in Hbad
      by (rewrite !Forall_app; split_and!; [done|done|by apply Forall_singleton]).
    rewrite (load_loop_app _ _ _ _ _ _ Hclosed), Hinv in Hbad.
    by apply load_loop_raise_at.
Qed.

End StopFacts.

(** * What a message line can carry *)

Module CarryFacts.

Import Re Cfml Spec Shape.
Import StrFacts ReFacts PatternFacts LoadFacts StoreFacts MoreFacts.

(** ** The choice of a lazy repetition *)

Section lazy_choice.

Context (k : cls) (caps : captures) (kont : cont).

(** When the rest matches after some repetition, the lazy repetition
    succeeds, with that repetition or a shorter one. *)
Lemma lazy_loop_some min acc a s' res :
  Forall (fun c => cls_match k c = true) a ->
  min <= length a ->
  kont (acc ++ a) s' caps = Some res ->
  exists a1 a2 res',
    a = a1 ++ a2 /\ min <= length a1 /\
    kont (acc ++ a1) (a2 ++ s') caps = Some res' /\
    lazy_loop k min acc (a ++ s') caps kont = Some res'.
Proof.
  revert min acc. induction a as [|c a IH]; intros min acc Ha Hlen Hk.
  - assert (min = 0) as -> by (cbn in Hlen; lia).
    exists [], [], res. rewrite app_nil_r in Hk.
    split_and!; [done|done|by rewrite app_nil_r|].
    destruct s'; cbn; by rewrite Hk.
  - inversion Ha as [|? ? Hc Ha']; subst.
    assert (Hmore : exists a1 a2 res',
      c :: a = a1 ++ a2 /\ min <= length a1 /\
      kont (acc ++ a1) (a2 ++ s') caps = Some res' /\
      lazy_loop k (pred min) (acc ++ [c]) (a ++ s') caps kont = Some res').
    { destruct (IH (pred min) (acc ++ [c])) as (a1 & a2 & res' & -> & Hl & Hk' & Hloop);
        [done|cbn in Hlen; lia|by rewrite <- app_assoc|].
      exists (c :: a1), a2, res'. rewrite <- app_assoc in Hk'.
      split_and!; [done|cbn; lia|done|done]. }
    destruct min as [|min].
    + cbn [lazy_loop app].
      destruct (kont acc (c :: a ++ s') caps) as [r0|] eqn:E.
      * exists [], (c :: a), r0.
        split_and!; [done|cbn; lia|by rewrite app_nil_r|done].
      * rewrite Hc. exact Hmore.
    + cbn [lazy_loop app]. rewrite Hc. exact Hmore.
Qed.

Lemma lazy_loop_is_Some min acc a s' :
  Forall (fun c => cls_match k c = true) a ->
  min <= length a ->
  is_Some (kont (acc ++ a) s' caps) ->
  is_Some (lazy_loop k min acc (a ++ s') caps kont).
Proof.
  intros Ha Hlen [res Hk].
  destruct (lazy_loop_some min acc a s' res Ha Hlen Hk) as (_ & _ & res' & _ & _ & _ & H).
  by exists res'.
Qed.

(** When the result tells how long the repetition was, no shorter
    repetition lets the rest match. *)
Lemma lazy_loop_earliest min acc a s' res :
  lazy_loop k min acc (a ++ s') caps kont = Some res ->
  (forall a' rest, kont (acc ++ a') rest caps = Some res -> length a' = length a) ->
  forall a1 a2, a = a1 ++ a2 -> a2 <> [] -> min <= length a1 ->
    Forall (fun c => cls_match k c = true) a1 ->
    kont (acc ++ a1) (a2 ++ s') caps = None.
Proof.
  intros H Hdet a1 a2 -> Hne Hlen Ha1.
  destruct (kont (acc ++ a1) (a2 ++ s') caps) as [r1|] eqn:E; [exfalso|done].
  destruct (lazy_loop_some min acc a1 (a2 ++ s') r1 Ha1 Hlen E)
    as (a0 & a0' & res' & -> & _ & Hk & Hloop).
  rewrite <- (app_assoc _ a2 s') in H. rewrite Hloop in H. simplify_eq.
  apply Hdet in Hk. rewrite !length_app in Hk.
  destruct a2; [done|cbn in Hk; lia].
Qed.

End lazy_choice.

(** ** A delimiter inside a field *)

Lemma suffixes_spec (s x : str) :
  x ∈ suffixes s <-> x <> [] /\ exists before, s = before ++ x.
Proof.
  induction s as [|c s IH]; cbn [suffixes].
  - split; [by intros ?%elem_of_nil|].
    intros [Hne [before H]]. symmetry in H.
    apply app_eq_nil in H as [_ ->]. done.
  - rewrite elem_of_cons, IH. split.
    + intros [->|[Hne [before ->]]]; [split; [done|by exists []]|].
      split; [done|]. by exists (c :: before).
    + intros [Hne [[|c' before] H]]; [left; by rewrite H|].
      right. injection H as -> ->. split; [done|]. by exists before.
Qed.

Lemma begins_inside_false (delim field : str) :
  begins_inside delim field = false <->
  forall before after, field = before ++ after -> before <> [] -> after <> [] ->
    Str.starts_with delim (after ++ delim) = false.
Proof.
  unfold begins_inside. split.
  - intros H before after -> Hb Ha.
    destruct (Str.starts_with delim (after ++ delim)) eqn:E; [|done].
    assert (Hex : existsb (fun after => Str.starts_with delim (after ++ delim))
                    (suffixes (tail (before ++ after))) = true).
    { apply existsb_exists. exists after. split; [|done].
      apply list_elem_of_In, suffixes_spec. split; [done|].
      destruct before as [|b before]; [done|]. by exists before. }
    by rewrite H in Hex.
  - intros H.
    destruct (existsb _ _) eqn:E; [|done].
    apply existsb_exists in E as (after & Hin & Hs).
    apply list_elem_of_In, suffixes_spec in Hin as [Hne [before Hb]].
    destruct field as [|c field]; cbn [tail] in Hb.
    + symmetry in Hb. apply app_eq_nil in Hb as [_ ->]. done.
    + rewrite (H (c :: before) after) in Hs; [done|by rewrite Hb|done|done].
Qed.

(** A prefix as long as the delimiter is the delimiter. *)
Lemma starts_with_short (d x y : str) :
  Str.starts_with d (x ++ y) = true -> length d <= length x ->
  Str.starts_with d x = true.
Proof.
  revert x. induction d as [|c d IH]; intros x H Hlen; [done|].
  destruct x as [|c' x]; [cbn in Hlen; lia|].
  cbn [app Str.starts_with] in *.
  apply andb_true_iff in H as [-> H]. cbn in Hlen.
  rewrite (IH x); [done|done|lia].
Qed.

(** ** The fields that a message line gives back *)

Lemma delimiter_begins (delim f2 rest rest' : str) :
  f2 ++ delim ++ rest = delim ++ rest' ->
  Str.starts_with delim (f2 ++ delim) = true.
Proof.
  intros Heq. apply (starts_with_short _ _ rest).
  - apply starts_with_spec. exists rest'. by rewrite <- app_assoc.
  - rewrite length_app. lia.
Qed.

Lemma message_match_carried t r s c :
  is_time t = true -> r <> [] -> s <> [] -> c <> [] ->
  Forall (fun x => x <> Char.LF) r ->
  Forall (fun x => x <> Char.LF) s ->
  Forall (fun x => x <> Char.LF) c ->
  begins_inside receiver_end r = false ->
  begins_inside sender_end s = false ->
  match_ MESSAGE_RE (message_line (Message t r s c)) =
    Some (message_groups (Message t r s c)).
Proof.
  intros Ht Hr Hs Hc Hrl Hsl Hcl Hrh Hsh.
  rewrite begins_inside_false in Hrh, Hsh.
  apply is_time_inv in Ht
    as (d1 & d2 & d3 & d4 & d5 & d6 & -> & H1 & H2 & H3 & H4 & H5 & H6).
  unfold match_, MESSAGE_RE, seq, digits2, message_line, message_groups.
  cbn [exec time receiver sender content].
  rewrite bool_decide_eq_true_2 by done.
  rewrite exec_text_app. cbn [app cls_match]. rewrite H1, H2.
  rewrite exec_colon, H3, H4, exec_colon, H5, H6.
  rewrite !exec_text_app.
  apply lazy_loop_first; [by apply any_all|destruct r; [done|cbn; lia]| |].
  { intros r1 r2 -> Hne Hl. by_contradiction E.
    apply exec_text_inv in E as (? & Heq & E).
    apply exec_text_inv in E as (? & -> & _).
    apply (delimiter_begins receiver_end) in Heq.
    rewrite (Hrh r1 r2) in Heq; [done|done| |done].
    intros ->. cbn in Hl. lia. }
  rewrite !exec_text_app.
  apply lazy_loop_first; [by apply any_all|destruct s; [done|cbn; lia]| |].
  { intros s1 s2 -> Hne Hl. by_contradiction E.
    apply exec_text_inv in E as (? & Heq & E).
    apply exec_text_inv in E as (? & -> & _).
    apply (delimiter_begins sender_end) in Heq.
    rewrite (Hsh s1 s2) in Heq; [done|done| |done].
    intros ->. cbn in Hl. lia. }
  rewrite !exec_text_app.
  apply lazy_loop_first; [by apply any_all|destruct c; [done|cbn; lia]| |].
  { intros c1 c2 -> Hne _. by_contradiction E.
    apply exec_text_inv in E as (tail & Heq & E).
    eol_inv E tail Htl.
    by apply (closing_token_last c2 (lit " #^&*-") (lit " #^&*-") tail "-") in Heq. }
  rewrite <- (app_nil_r (lit " #^&*-")). by rewrite exec_text_app.
Qed.


(** The rest of a message line after a field, once a delimiter was read. *)
Ltac tail_inv E :=
  repeat first
    [ apply exec_text_inv in E as (? & -> & E)
    | apply lazy_loop_inv in E as (? & ? & -> & _ & _ & E) ];
  match type of E with
  | (if ?b then _ else _) = Some _ => destruct b; [|done]
  end;
  cbn in E.

Lemma reads_back_carried t r s c :
  match_ MESSAGE_RE (message_line (Message t r s c)) =
    Some (message_groups (Message t r s c)) ->
  begins_inside receiver_end r = false /\ begins_inside sender_end s = false.
Proof.
  intros H. pose proof H as Hinv.
  apply message_match_inv in Hinv
    as (t' & r' & s' & c' & tl & _ & Ht & Hr & Hs & Hc & Hrl & Hsl & Hcl & _ & Hg).
  unfold message_groups in Hg. cbn [time receiver sender content] in Hg.
  simplify_eq.
  apply is_time_inv in Ht
    as (d1 & d2 & d3 & d4 & d5 & d6 & -> & H1 & H2 & H3 & H4 & H5 & H6).
  unfold match_, MESSAGE_RE, seq, digits2, message_line, message_groups in H.
  cbn [exec time receiver sender content] in H.
  rewrite bool_decide_eq_true_2 in H by done.
  rewrite exec_text_app in H. cbn [app cls_match] in H. rewrite H1, H2 in H.
  rewrite exec_colon, H3, H4, exec_colon, H5, H6 in H.
  rewrite !exec_text_app in H.
  split.
  - apply begins_inside_false. intros r1 r2 -> Hr1 Hr2.
    destruct (Str.starts_with receiver_end (r2 ++ receiver_end)) eqn:Ecut;
      [exfalso|done].
    apply starts_with_spec in Ecut as [tail Ecut].
    assert (Htail : Forall (fun x => x <> Char.LF) tail).
    { apply Forall_app in Hrl as [_ Hr2l].
      assert (Hall : Forall (fun x => x <> Char.LF) (r2 ++ receiver_end))
        by (apply Forall_app; split; [done|by repeat constructor]).
      rewrite Ecut in Hall. by apply Forall_app in Hall as [_ ?]. }
    assert (Hre : forall X, r2 ++ lit " #$ " ++ lit "*# " ++ X =
                            lit " #$ " ++ lit "*# " ++ tail ++ X).
    { intros X. change (r2 ++ receiver_end ++ X = receiver_end ++ tail ++ X).
      by rewrite (app_assoc r2), Ecut, <- app_assoc. }
    pose proof (lazy_loop_earliest Any _ _ 1 [] (r1 ++ r2) _ _ H) as Hearly.
    assert (Hnone := fun Hdet => Hearly Hdet r1 r2 eq_refl Hr2).
    clear Hearly H. cbn beta in Hnone.
    apply Forall_app in Hrl as [Hr1l _].
    eassert (Hk : _ = None).
    { apply Hnone; [|destruct r1; [done|cbn; lia]|by apply any_all].
      intros a' rest E. cbn [app] in E. tail_inv E. by simplify_eq. }
    clear Hnone. rewrite Hre, !exec_text_app in Hk.
    eapply is_Some_None. rewrite <- Hk.
    rewrite (app_assoc tail s').
    apply lazy_loop_is_Some;
      [apply any_all; by apply Forall_app|
       rewrite length_app; destruct s'; [done|cbn; lia]|].
    cbn [app]. rewrite !exec_text_app.
    apply lazy_loop_is_Some; [by apply any_all|destruct c'; [done|cbn; lia]|].
    rewrite <- (app_nil_r (lit " #^&*-")), exec_text_app. by eexists.
  - apply lazy_loop_inv in H as (a & rest & Heq & _ & _ & H).
    cbn [app] in H.
    pose proof H as Hdet. tail_inv Hdet. simplify_eq.
    match type of Heq with
    | _ = _ ++ ?x => assert (x = []) as -> by (by apply (app_inv_head (lit " #^&*-")))
    end.
    clear Heq. rewrite !exec_text_app in H.
    apply begins_inside_false. intros s1 s2 -> Hs1 Hs2.
    destruct (Str.starts_with sender_end (s2 ++ sender_end)) eqn:Ecut;
      [exfalso|done].
    apply starts_with_spec in Ecut as [tail Ecut].
    assert (Htail : Forall (fun x => x <> Char.LF) tail).
    { apply Forall_app in Hsl as [_ Hs2l].
      assert (Hall : Forall (fun x => x <> Char.LF) (s2 ++ sender_end))
        by (apply Forall_app; split; [done|by repeat constructor]).
      rewrite Ecut in Hall. by apply Forall_app in Hall as [_ ?]. }
    assert (Hre : forall X, s2 ++ lit " #* " ++ lit "content -*&^# " ++ X =
                            lit " #* " ++ lit "content -*&^# " ++ tail ++ X).
    { intros X. change (s2 ++ sender_end ++ X = sender_end ++ tail ++ X).
      by rewrite (app_assoc s2), Ecut, <- app_assoc. }
    pose proof (lazy_loop_earliest Any _ _ 1 [] (s1 ++ s2) _ _ H) as Hearly.
    assert (Hnone := fun Hdet => Hearly Hdet s1 s2 eq_refl Hs2).
    clear Hearly H. cbn beta in Hnone.
    apply Forall_app in Hsl as [Hs1l _].
    eassert (Hk : _ = None).
    { apply Hnone; [|destruct s1; [done|cbn; lia]|by apply any_all].
      intros a' rest E. cbn [app] in E. tail_inv E. by simplify_eq. }
    clear Hnone. rewrite Hre, !exec_text_app in Hk.
    eapply is_Some_None. rewrite <- Hk.
    rewrite (app_assoc tail c').
    apply lazy_loop_is_Some;
      [apply any_all; by apply Forall_app|
       rewrite length_app; destruct c'; [done|cbn; lia]|].
    cbn [app]. rewrite <- (app_nil_r (lit " #^&*-")), exec_text_app. by eexists.
Qed.

(** ** Stores built by [add_message] *)

Lemma carried_reads_back a :
  nonempty_args a ->
  carried_args a <-> no_linebreak (arg_date a) /\ reads_back (arg_message a).
Proof.
  intros (_ & _ & Hr & Hs & Hc). unfold arg_message. split.
  - intros (Ht & Hdl & Hrl & Hsl & Hcl & Hrh & Hsh). split; [done|]. split.
    + apply message_line_clean; auto using is_time_no_linebreak.
    + apply message_match_carried; auto using no_linebreak_not_LF.
  - intros [Hdl Hm]. pose proof (reads_back_well_shaped _ Hm) as Hw.
    destruct Hw as (Ht & _ & Hrl & Hsl & Hcl). destruct Hm as [_ Hm].
    apply reads_back_carried in Hm as [Hrh Hsh]. by split_and!.
Qed.

Lemma add_call_blocks a self :
  nonempty_args a ->
  exists self', add_call a self = (Returns, self') /\
    (Forall block_reads_back self' <->
     Forall block_reads_back self /\
     no_linebreak (arg_date a) /\ reads_back (arg_message a)).
Proof.
  intros (Hd & Ht & Hr & Hs & Hc).
  unfold add_call, add_message, arg_message.
  destruct a as [d t r s c].
  cbn [arg_date arg_time arg_receiver arg_sender arg_content] in *.
  rewrite first_empty_None by done.
  rewrite add_to_block_spec.
  destruct (first_block self d) as [[i b]|] eqn:Hfb.
  - eexists. split; [done|].
    apply first_block_Some in Hfb as [Hi Hdate]. split.
    + intros H.
      pose proof (proj1 (Forall_lookup _ _) H i _
        (list_lookup_insert_eq self i _ (lookup_lt_Some _ _ _ Hi))) as [Hbd Hbm].
      cbn [date messages] in Hbd, Hbm.
      apply Forall_app in Hbm as [Hbm Hm].
      rewrite Forall_singleton in Hm.
      split_and!; [|by rewrite <- Hdate|done].
      apply Forall_lookup. intros j x Hj.
      destruct (decide (i = j)) as [<-|Hne].
      * rewrite Hi in Hj. by injection Hj as <-.
      * apply (proj1 (Forall_lookup _ _) H j).
        by rewrite list_lookup_insert_ne.
    + intros (Hself & Hdl & Hm).
      apply Forall_insert; [done|].
      pose proof (proj1 (Forall_lookup _ _) Hself i b Hi) as [Hbd Hbm].
      split; [done|]. cbn. apply Forall_app. split; [done|by apply Forall_singleton].
  - eexists. split; [done|].
    rewrite Forall_app, Forall_singleton. unfold block_reads_back.
    cbn [date messages]. by rewrite Forall_singleton.
Qed.

Lemma add_all_blocks calls : forall self,
  Forall nonempty_args calls ->
  exists store, add_all calls self = Some store /\
    (Forall block_reads_back store <->
     Forall block_reads_back self /\
     Forall (fun a => no_linebreak (arg_date a) /\ reads_back (arg_message a))
            calls).
Proof.
  induction calls as [|a calls IH]; intros self Hcalls.
  - exists self. split; [done|]. split; [done|by intros [? _]].
  - apply Forall_cons in Hcalls as [Ha Hcalls].
    destruct (add_call_blocks a self Ha) as (self' & Hadd & Hself').
    destruct (IH self' Hcalls) as (store & Hall & Hstore).
    exists store. cbn [add_all]. rewrite Hadd. split; [done|].
    rewrite Hstore, Hself', Forall_cons. tauto.
Qed.

(** A store is read back from its text exactly when each of its blocks
    is. *)
Lemma round_trips_blocks store :
  round_trips store <-> Forall block_reads_back store.
Proof.
  split.
  - intros H. by eapply load_reads_back, (H []).
  - intros H self. by apply load_dumps.
Qed.

End CarryFacts.

(** * The properties of the format and of the store *)

Import Re Cfml Spec Examples Shape Samples.
Import StrFacts ReFacts PatternFacts LoadFacts StoreFacts MoreFacts.
Import StopFacts CarryFacts.

(** ** The scenarios of the format *)

Example load_text_hello : load text_hello [] = (Returns, store_hello).
Proof. by vm_compute. Qed.

Example dumps_store_hello : dumps store_hello = text_hello.
Proof. by vm_compute. Qed.

Example dumps_empty_store : dumps [] = [].
Proof. reflexivity. Qed.

(** The text of [text_hello] without its end marker. *)
Example load_unterminated :
  load (lit "#$* date -* 2024-01-01 *- #$*" ++ nl ++
        lit "@# 09:00:00 #@ $# Bob #$ *# Alice #* content -*&^# hello #^&*-")
       [] = (Raises MissingEnd, []).
Proof. by vm_compute. Qed.

(** Blank lines and the white space around a line are dropped; any white
    space may stand before the closing [#$*] of a header. *)
Example load_blank_lines :
  load (lit "  " ++ [Char.CR; Char.LF] ++
        lit "   #$* date -* 2024-01-01 *-" ++ [Char.chr 9] ++ lit "#$*  " ++ nl ++
        nl ++ lit "*$# end *$#" ++ nl)
       store_hello = (Returns, [Block day []]).
Proof. by vm_compute. Qed.

Example search_by_sender :
  search_messages (Some (lit "Alice")) None None
    [Block day [hello; Message (lit "09:00:05") (lit "Alice") (lit "Bob") (lit "hi")]]
  = [Hit day hello].
Proof. by vm_compute. Qed.

(** ** Failure of [load] *)

(** C1, as stated: a [load] that fails leaves no block of the failing text
    in the store.  It does not hold: the block closed before the line
    [oops] stays in the store. *)
Lemma load_failure_keeps_blocks :
  ~ load_all_or_nothing text_closed_then_oops [].
Proof.
  intros H.
  assert (Hload : load text_closed_then_oops [] =
            (Raises (InvalidLineFormat (lit "oops")), [Block day []]))
    by (vm_compute; reflexivity).
  destruct (H _ _ Hload) as [Heq|Heq]; discriminate Heq.
Qed.

(** C1, amended: [load] first empties the store, so nothing of the store
    of before survives and the store after a failure depends on the text
    alone.  [load] fails with [e] and leaves [self'] exactly when the lines
    of the text are cut in three: the lines up to the last end marker that
    was read, of which a [load] returns [self']; the lines of the block
    that was open, a header line followed by message lines or nothing; and
    the rest, which starts with the line at which [load] raises [e], or is
    empty when the text ends inside a block and [e] is "Missing end
    marker".  So the store holds the blocks closed before the failing line,
    all of them and no other block. *)
Theorem load_failure_leaves_closed_blocks (text : str) (self : Store)
    (e : FormatError) (self' : Store) :
  load text self = (Raises e, self') <-> stops_with text e self'.
Proof. split; [apply load_stops|apply stops_load]. Qed.

Lemma load_failure_leaves_closed_blocks_witness :
  load text_two_then_oops store_talk =
    (Raises (InvalidLineFormat (lit "oops")), store_two) /\
  stops_with text_two_then_oops (InvalidLineFormat (lit "oops")) store_two /\
  forall blocks,
    stops_with text_two_then_oops (InvalidLineFormat (lit "oops")) blocks ->
    blocks = store_two.
Proof.
  assert (Hload : forall self, load text_two_then_oops self =
            (Raises (InvalidLineFormat (lit "oops")), store_two))
    by (intros self; vm_compute; reflexivity).
  split; [exact (Hload store_talk)|]. split.
  - exact (proj1 (load_failure_leaves_closed_blocks _ store_talk _ _)
                 (Hload store_talk)).
  - intros blocks H.
    pose proof (proj2 (load_failure_leaves_closed_blocks _ [] _ _) H) as H'.
    rewrite (Hload []) in H'. by injection H' as <-.
Defined.

(** ** Round trips *)

(** C2, as stated: a store built by calls of [add_message] with non-empty
    arguments round-trips through [dumps] and [load].  It does not hold:
    [add_message] accepts the time [noon], and [load] refuses the line
    that [dumps] prints for it. *)
Lemma add_noon_does_not_round_trip :
  Forall nonempty_args [call_noon] /\
  add_all [call_noon] [] = Some store_noon /\
  ~ round_trips store_noon.
Proof.
  split_and!.
  - apply Forall_singleton. by split_and!.
  - reflexivity.
  - intros H. specialize (H []).
    assert (Hload : (load (dumps store_noon) []).1 =
              Raises (InvalidLineFormat (message_line
                (Message (lit "noon") (lit "Bob") (lit "Alice") (lit "hello")))))
      by (vm_compute; reflexivity).
    rewrite H in Hload. discriminate Hload.
Qed.

(** Why the receiver and the sender must hold no delimiter, and no field a
    line boundary: [load] cuts the receiver at the first delimiter, and
    [splitlines] cuts the line. *)
Example delimiter_in_receiver_is_cut :
  load (dumps [Block day [Message (lit "09:00:00") (lit "a #$ *# b") (lit "s")
                                  (lit "c")]]) [] =
  (Returns, [Block day [Message (lit "09:00:00") (lit "a") (lit "b #$ *# s")
                                (lit "c")]]).
Proof. by vm_compute. Qed.

Example linebreak_in_content_is_refused :
  load (dumps [Block day [Message (lit "09:00:00") (lit "Bob") (lit "Alice")
                                  (lit "one" ++ nl ++ lit "two")]]) [] =
  (Raises (InvalidLineFormat
     (lit "@# 09:00:00 #@ $# Bob #$ *# Alice #* content -*&^# one")), []).
Proof. by vm_compute. Qed.

(** A receiver that ends like its delimiter hides one, although the whole
    delimiter does not occur in it: the copy runs on into the delimiter
    that follows. *)
Example delimiter_at_end_of_receiver_is_cut :
  load (dumps [Block day [Message (lit "09:00:00") (lit "a #$ *#") (lit "s")
                                  (lit "c")]]) [] =
  (Returns, [Block day [Message (lit "09:00:00") (lit "a") (lit "#$ *# s")
                                (lit "c")]]).
Proof. by vm_compute. Qed.

(** C2, amended: the calls of [add_message] with non-empty arguments all
    return, and the store they build from the empty store round-trips
    through [dumps] and [load] exactly when in every call the time has the
    shape DD:DD:DD, no argument holds a line boundary, and neither the
    receiver nor the sender hides a copy of the delimiter that follows it
    in the line (a copy that begins after the first character of the
    field, inside it or running on into the delimiter).  A [#] in a
    receiver or a sender does no harm, and the content may hold anything
    but a line boundary. *)
Theorem add_then_dumps_then_load (calls : list add_args) :
  Forall nonempty_args calls ->
  exists store, add_all calls [] = Some store /\
    (round_trips store <-> Forall carried_args calls).
Proof.
  intros H.
  destruct (add_all_blocks calls [] H) as (store & Hadd & Hstore).
  exists store. split; [done|].
  rewrite round_trips_blocks, Hstore.
  split.
  - intros [_ Hcalls]. apply Forall_forall. intros a Hin.
    apply carried_reads_back.
    + by apply (proj1 (Forall_forall _ _) H).
    + by apply (proj1 (Forall_forall _ _) Hcalls).
  - intros Hcalls. split; [constructor|]. apply Forall_forall. intros a Hin.
    apply carried_reads_back.
    + by apply (proj1 (Forall_forall _ _) H).
    + by apply (proj1 (Forall_forall _ _) Hcalls).
Qed.

Lemma add_then_dumps_then_load_witness :
  Forall nonempty_args [call_hello; call_sharp] /\
  add_all [call_hello; call_sharp] [] = Some store_sharp /\
  Forall carried_args [call_hello; call_sharp] /\
  round_trips store_sharp.
Proof.
  assert (Hne : Forall nonempty_args [call_hello; call_sharp]).
  { repeat (apply List.Forall_cons; [by split_and!|]). constructor. }
  assert (Hc : Forall carried_args [call_hello; call_sharp]).
  { repeat (apply List.Forall_cons;
      [split_and!; try reflexivity; repeat constructor|]).
    constructor. }
  destruct (add_then_dumps_then_load _ Hne) as (store & Hadd & Hiff).
  assert (Hs : add_all [call_hello; call_sharp] [] = Some store_sharp)
    by reflexivity.
  rewrite Hs in Hadd. injection Hadd as <-.
  split; [exact Hne|]. split; [exact Hs|]. split; [exact Hc|].
  exact (proj2 Hiff Hc).
Defined.

(** C3: when [load] returns on a text, [load] also returns on what
    [dumps] prints for the blocks it built, and it builds the same blocks:
    the same dates and the same messages in the same order. *)
Theorem load_dumps_load (text : str) (self : Store) (blocks : Store) :
  load text self = (Returns, blocks) ->
  forall other, load (dumps blocks) other = (Returns, blocks).
Proof.
  intros H other. apply load_dumps. by eapply load_reads_back.
Qed.

Lemma load_dumps_load_witness :
  load text_hello [] = (Returns, store_hello) /\
  forall other, load (dumps store_hello) other = (Returns, store_hello).
Proof.
  assert (H : load text_hello [] = (Returns, store_hello))
    by (vm_compute; reflexivity).
  split; [exact H|]. exact (load_dumps_load _ _ _ H).
Defined.

(** ** Invariants of the store *)

(** C4: every store reachable from the empty store holds at most one
    block per date.  The code breaks it: [load] opens a block for every
    header line and compares no dates, where [add_message] looks for the
    block of the date and adds to it.  The second block of a date is then
    out of reach of [list_messages], [delete_message] and [edit_message],
    which stop at the first. *)
Theorem load_repeats_a_date :
  load text_day_twice [] = (Returns, [Block day []; Block day [hello]]) /\
  ~ distinct_dates [Block day []; Block day [hello]] /\
  list_messages [Block day []; Block day [hello]] day = inr [] /\
  add_message day (lit "09:00:00") (lit "Bob") (lit "Alice") (lit "hello")
    [Block day []] = (Returns, [Block day [hello]]).
Proof.
  split_and!; [by vm_compute| |by vm_compute|by vm_compute].
  unfold distinct_dates. cbn. intros H.
  apply NoDup_cons in H as [Hin _]. apply Hin, list_elem_of_here.
Qed.

(** The operations keep the dates distinct, whether they return or raise,
    as long as no text that is loaded has two header lines of one date. *)
Lemma reachable_dates_distinct (calls : list call) :
  Forall repeats_no_date calls ->
  distinct_dates (run_all calls []).
Proof.
  intros H. unfold run_all.
  assert (Hstart : distinct_dates []) by constructor.
  revert Hstart. generalize ([] : Store).
  induction H as [|c calls Hc _ IH]; intros self Hself; [done|].
  cbn [foldl]. apply IH. by apply run_distinct.
Qed.

(** C5: every block of a reachable store has a non-empty date.  The code
    breaks it: [add_message] refuses an empty date, and [load] accepts a
    header line whose date is empty, since the date group of [HEADER_RE]
    is [.*?] where the groups of [MESSAGE_RE] are [.+?]. *)
Theorem load_accepts_empty_date :
  load text_empty_date [] = (Returns, [Block [] []]) /\
  add_message [] (lit "09:00:00") (lit "Bob") (lit "Alice") (lit "hello") [] =
    (Raises (MissingRequiredField "date"), []).
Proof. split; vm_compute; reflexivity. Qed.

(** C9: a match of [MESSAGE_RE] never has an empty group, and so [load]
    never raises "Missing field", whatever the text. *)
Theorem load_never_misses_a_field (line : str) (msg : captures)
    (text : str) (self : Store) (key : string) :
  (match_ MESSAGE_RE line = Some msg ->
   group "time" msg <> [] /\ group "receiver" msg <> [] /\
   group "sender" msg <> [] /\ group "content" msg <> []) /\
  (load text self).1 <> Raises (MissingField key).
Proof.
  split; [apply message_match_groups|].
  unfold load. generalize (stripped_lines text) ([] : Store) (@None str)
    ([] : list message).
  intros lines. induction lines as [|l lines IH]; intros blocks cur msgs.
  - cbn. by destruct cur.
  - cbn [load_loop].
    destruct (match_ HEADER_RE l); [by destruct cur|].
    destruct (match_ MESSAGE_RE l) as [m|] eqn:Em.
    { destruct cur; [|done].
      by rewrite (message_match_no_missing _ _ Em). }
    destruct (match_ END_RE l); [|done]. by destruct cur.
Qed.

(** ** The operations *)

(** C6, as stated: [search_messages] returns the messages that match every
    supplied filter.  It does not hold: a sender filter that is supplied as
    the empty string constrains nothing, and the message of Alice is
    returned. *)
Lemma search_ignores_empty_filter :
  ~ selection (fun h => matches_supplied (Some []) None None (hit_message h))
      (all_hits store_hello)
      (search_messages (Some []) None None store_hello).
Proof.
  assert (Hs : search_messages (Some []) None None store_hello = [Hit day hello])
    by reflexivity.
  assert (Ha : all_hits store_hello = [Hit day hello]) by reflexivity.
  rewrite Hs, Ha. intros H. inversion H as [|? ? ? Hm _|? ? ? _ Hrest]; subst.
  - destruct Hm as (Hsender & _). by specialize (Hsender [] eq_refl).
  - inversion Hrest.
Qed.

(** C6, amended: [search_messages] returns, each with the date of its
    block and in the order of the blocks and of their messages, exactly
    the messages that match every filter that is supplied and not empty
    (sender and receiver by equality, text by occurrence in the content);
    a filter that is omitted or empty constrains nothing.  It is a total
    function: when nothing matches, the result is the empty list. *)
Theorem search_messages_selects (self : Store)
    (sender_arg receiver_arg text_arg : option str) :
  selection
    (fun h => matches_nonempty sender_arg receiver_arg text_arg (hit_message h))
    (all_hits self)
    (search_messages sender_arg receiver_arg text_arg self).
Proof.
  destruct (search_blocks sender_arg receiver_arg text_arg self [])
    as (out & Hout & Hsel).
  unfold search_messages. by rewrite Hout.
Qed.

(** C7: when the store has a block of date [d] and no argument is empty,
    [add_message] returns, appends the message to the first block of that
    date, adds no block and leaves [list_dates] as it is. *)
Theorem add_message_existing_date (self : Store) (d t r s c : str) :
  d ∈ list_dates self ->
  d <> [] -> t <> [] -> r <> [] -> s <> [] -> c <> [] ->
  exists i b,
    first_block self d = Some (i, b) /\
    add_message d t r s c self =
      (Returns, <[i := Block d (messages b ++ [Message t r s c])]> self) /\
    list_dates (add_message d t r s c self).2 = list_dates self /\
    length (list_dates (add_message d t r s c self).2) = length (list_dates self) /\
    length (add_message d t r s c self).2 = length self.
Proof.
  intros Hin Hd Ht Hr Hs Hc.
  destruct (first_block_elem_of _ _ Hin) as (i & b & Hfb).
  destruct (first_block_Some _ _ _ _ Hfb) as [Hi Hdate].
  assert (Hadd : add_message d t r s c self =
    (Returns, <[i := Block d (messages b ++ [Message t r s c])]> self)).
  { unfold add_message. destruct d, t, r, s, c; try done.
    cbn [first_empty Str.is_empty].
    by rewrite add_to_block_spec, Hfb, Hdate. }
  exists i, b. rewrite Hadd. cbn [snd]. subst d.
  rewrite list_dates_insert by done.
  split_and!; [done|done|done|done|by rewrite length_insert].
Qed.

Lemma add_message_existing_date_witness :
  day ∈ list_dates store_hello /\
  exists i b,
    first_block store_hello day = Some (i, b) /\
    add_message day (lit "09:00:05") (lit "Alice") (lit "Bob") (lit "hi")
      store_hello =
      (Returns,
       <[i := Block day (messages b ++
               [Message (lit "09:00:05") (lit "Alice") (lit "Bob") (lit "hi")])]>
         store_hello) /\
    list_dates (add_message day (lit "09:00:05") (lit "Alice") (lit "Bob")
                  (lit "hi") store_hello).2 = list_dates store_hello /\
    length (list_dates (add_message day (lit "09:00:05") (lit "Alice")
                          (lit "Bob") (lit "hi") store_hello).2) =
      length (list_dates store_hello) /\
    length (add_message day (lit "09:00:05") (lit "Alice") (lit "Bob")
              (lit "hi") store_hello).2 = length store_hello.
Proof.
  assert (Hin : day ∈ list_dates store_hello) by apply list_elem_of_here.
  split; [exact Hin|].
  apply (add_message_existing_date store_hello _ _ _ _ _ Hin); discriminate.
Defined.

(** C8: when the store has a block of date [d] and the index is outside
    the messages of the first block of that date, [delete_message] raises
    "Invalid message index" and leaves the whole store as it is. *)
Theorem delete_message_out_of_range (self : Store) (d : str) (index : Z)
    (i : nat) (b : block) :
  first_block self d = Some (i, b) ->
  (index < 0 \/ Z.of_nat (length (messages b)) <= index)%Z ->
  delete_message d index self = (Raises (InvalidMessageIndex index), self).
Proof.
  intros Hfb Hout. unfold delete_message.
  rewrite delete_message_loop_spec, Hfb.
  unfold index_in_range.
  destruct (0 <=? index)%Z eqn:E1, (index <? Z.of_nat (length (messages b)))%Z eqn:E2;
    try done.
  apply Z.leb_le in E1. apply Z.ltb_lt in E2. lia.
Qed.

Lemma delete_message_out_of_range_witness :
  first_block store_hello day = Some (0, Block day [hello]) /\
  delete_message day 1 store_hello = (Raises (InvalidMessageIndex 1), store_hello) /\
  delete_message day (-1) store_hello =
    (Raises (InvalidMessageIndex (-1)), store_hello).
Proof.
  assert (Hfb : first_block store_hello day = Some (0, Block day [hello]))
    by reflexivity.
  split; [exact Hfb|]. split.
  - apply (delete_message_out_of_range _ _ _ _ _ Hfb). right. cbn. lia.
  - apply (delete_message_out_of_range _ _ _ _ _ Hfb). left. lia.
Defined.

(** C10: [edit_message] checks and writes the items of [updates] one by
    one in their order.  When items that it accepts are followed by an
    item with a key that is none of the four, or with an empty value, the
    call raises for that item, and the values of the items before it are
    already written to the message in the store. *)
Theorem edit_message_partial_effect (self : Store) (d : str) (index : Z)
    (i : nat) (b : block) (msg : message)
    (applied rest : list (string * str)) (refused : string * str)
    (e : FormatError) :
  first_block self d = Some (i, b) ->
  (0 <= index)%Z ->
  messages b !! Z.to_nat index = Some msg ->
  NoDup applied.*1 ->
  Forall valid_update applied ->
  update_error refused = Some e ->
  edit_message d index (applied ++ refused :: rest) self =
    (Raises e,
     <[i := Block (date b)
              (<[Z.to_nat index := write_all msg applied]> (messages b))]> self) /\
  forall key value, (key, value) ∈ applied ->
    get_item (write_all msg applied) key = value.
Proof.
  intros Hfb Hidx Hmsg Hnd Hv He. split.
  - unfold edit_message. rewrite edit_message_loop_spec, Hfb, Hmsg.
    assert (index_in_range index (messages b) = true) as ->.
    { apply lookup_lt_Some in Hmsg. unfold index_in_range.
      apply andb_true_iff. split; [apply Z.leb_le|apply Z.ltb_lt]; lia. }
    rewrite apply_updates_app by done.
    by rewrite (apply_updates_refused _ _ _ e).
  - intros key value Hin. by apply write_all_get.
Qed.

Lemma edit_message_partial_effect_witness :
  edit_message day 0
    [("time"%string, lit "10:00:00"); ("colour"%string, lit "red");
     ("sender"%string, lit "Carol")] store_hello =
    (Raises (InvalidEditField "colour"),
     [Block day [Message (lit "10:00:00") (lit "Bob") (lit "Alice") (lit "hello")]]) /\
  edit_message day 0
    [("time"%string, lit "10:00:00"); ("sender"%string, [])] store_hello =
    (Raises (EmptyValue "sender"),
     [Block day [Message (lit "10:00:00") (lit "Bob") (lit "Alice") (lit "hello")]]).
Proof.
  assert (Hfb : first_block store_hello day = Some (0, Block day [hello]))
    by reflexivity.
  assert (Hv : Forall valid_update [("time"%string, lit "10:00:00")]).
  { apply Forall_singleton. split; [apply list_elem_of_here|discriminate]. }
  assert (Hnd : NoDup [("time"%string, lit "10:00:00")].*1)
    by apply NoDup_singleton.
  split.
  - exact (proj1 (edit_message_partial_effect store_hello day 0 0 _ hello
      [("time"%string, lit "10:00:00")] [("sender"%string, lit "Carol")]
      ("colour"%string, lit "red") (InvalidEditField "colour")
      Hfb (Z.le_refl 0) eq_refl Hnd Hv eq_refl)).
  - exact (proj1 (edit_message_partial_effect store_hello day 0 0 _ hello
      [("time"%string, lit "10:00:00")] []
      ("sender"%string, []) (EmptyValue "sender")
      Hfb (Z.le_refl 0) eq_refl Hnd Hv eq_refl)).
Defined.

(** * More properties of the store, of [load] and of [dumps] *)

Import Shape Samples MoreFacts.

(** ** Adding *)

(** X1: when no block has the date and no argument is empty,
    [add_message] returns and appends a new block, with the message alone,
    after all the blocks; the date comes last in [list_dates]. *)

Theorem add_message_new_date (self : Store) (d t r s c : str) :
  d ∉ list_dates self ->
  d <> [] -> t <> [] -> r <> [] -> s <> [] -> c <> [] ->
  add_message d t r s c self =
    (Returns, self ++ [Block d [Message t r s c]]) /\
  list_dates (add_message d t r s c self).2 = list_dates self ++ [d].
Proof.
  intros Hd ? ? ? ? ?.
  assert (Hadd : add_message d t r s c self =
            (Returns, self ++ [Block d [Message t r s c]])).
  { unfold add_message. rewrite first_empty_None by done.
    rewrite add_to_block_spec.
    destruct (first_block self d) as [[i b]|] eqn:Hfb; [|done].
    apply first_block_Some in Hfb as [Hi <-]. destruct Hd.
    apply list_elem_of_fmap. exists b. split; [done|].
    by eapply list_elem_of_lookup_2. }
  split; [done|]. rewrite Hadd. unfold list_dates. cbn [snd].
  by rewrite fmap_app.
Qed.


Lemma add_message_new_date_witness :
  (next_day ∉ list_dates store_hello) /\
  add_message next_day (lit "10:00:00") (lit "Bob") (lit "Alice") (lit "yo")
    store_hello =
    (Returns,
     store_hello ++
       [Block next_day [Message (lit "10:00:00") (lit "Bob") (lit "Alice") (lit "yo")]]).
Proof.
  assert (H : next_day ∉ list_dates store_hello).
  { intros Hin. apply list_elem_of_singleton in Hin. discriminate Hin. }
  split; [exact H|].
  apply (add_message_new_date store_hello next_day _ _ _ _ H); discriminate.
Defined.

(** X2: [add_message] returns exactly when none of its five arguments is
    empty.  Otherwise it raises "Missing required field" for the first
    empty one in the order date, time, receiver, sender, content: for the
    date when the date is empty, for the time when only the date is not
    empty, and so on; and the store is as before. *)

Theorem add_message_checks_arguments (self : Store) (d t r s c : str) :
  ((add_message d t r s c self).1 = Returns <->
   d <> [] /\ t <> [] /\ r <> [] /\ s <> [] /\ c <> []) /\
  (d = [] ->
   add_message d t r s c self = (Raises (MissingRequiredField "date"), self)) /\
  (d <> [] -> t = [] ->
   add_message d t r s c self = (Raises (MissingRequiredField "time"), self)) /\
  (d <> [] -> t <> [] -> r = [] ->
   add_message d t r s c self =
     (Raises (MissingRequiredField "receiver"), self)) /\
  (d <> [] -> t <> [] -> r <> [] -> s = [] ->
   add_message d t r s c self =
     (Raises (MissingRequiredField "sender"), self)) /\
  (d <> [] -> t <> [] -> r <> [] -> s <> [] -> c = [] ->
   add_message d t r s c self =
     (Raises (MissingRequiredField "content"), self)).
Proof.
  split_and!.
  - unfold add_message.
    destruct (first_empty _) as [field|] eqn:E.
    + split; [done|]. intros (? & ? & ? & ? & ?).
      by rewrite first_empty_None in E.
    + split; [by destruct d, t, r, s, c|]. intros _.
      by destruct (add_to_block _ _ _).
  - by intros ->.
  - intros Hd ->. by destruct d.
  - intros Hd Ht ->. by destruct d, t.
  - intros Hd Ht Hr ->. by destruct d, t, r.
  - intros Hd Ht Hr Hs ->. by destruct d, t, r, s.
Qed.


(** X3: after [add_message] has returned, [list_messages] of the date
    returns the messages it returned before (none when the date was new)
    followed by the new message, and returns for every other date what it
    returned before. *)

Theorem list_messages_after_add (self : Store) (d t r s c : str) :
  d <> [] -> t <> [] -> r <> [] -> s <> [] -> c <> [] ->
  list_messages (add_message d t r s c self).2 d =
    inr (messages_of self d ++ [Message t r s c]) /\
  forall d', d' <> d ->
    list_messages (add_message d t r s c self).2 d' = list_messages self d'.
Proof.
  intros ? ? ? ? ?. unfold add_message, messages_of.
  rewrite first_empty_None by done. rewrite add_to_block_spec.
  rewrite (list_messages_spec self d).
  destruct (first_block self d) as [[i b]|] eqn:Hfb; cbn [snd].
  - split.
    + rewrite list_messages_spec, (first_block_insert _ _ _ _ _ Hfb). done.
    + intros d' Hne. by apply (first_block_insert_ne _ d).
  - split.
    + rewrite list_messages_app_new, list_messages_spec, Hfb.
      by rewrite bool_decide_eq_true_2.
    + intros d' Hne. rewrite list_messages_app_new.
      destruct (list_messages self d'); [|done].
      by rewrite bool_decide_eq_false_2.
Qed.


Lemma list_messages_after_add_witness :
  list_messages
    (add_message day (lit "09:00:05") (lit "Alice") (lit "Bob") (lit "hi")
       store_hello).2 day = inr [hello; reply].
Proof.
  apply (list_messages_after_add store_hello day (lit "09:00:05") (lit "Alice")
           (lit "Bob") (lit "hi")); discriminate.
Defined.

(** ** Deleting *)

(** X4: [delete_date] always returns.  Afterwards no block has the date
    and [list_messages] of it raises "No such date block"; the messages of
    every other date are as before; when no block had the date the store
    is unchanged. *)

Theorem delete_date_removes (self : Store) (d : str) :
  (delete_date d self).1 = Returns /\
  list_messages (delete_date d self).2 d = inl (NoSuchDateBlock d) /\
  (d ∉ list_dates (delete_date d self).2) /\
  (forall d', d' <> d ->
     list_messages (delete_date d self).2 d' = list_messages self d') /\
  (d ∉ list_dates self -> (delete_date d self).2 = self).
Proof.
  unfold delete_date. cbn [fst snd]. split_and!.
  - done.
  - by rewrite list_messages_filter, bool_decide_eq_true_2.
  - unfold list_dates. intros Hin.
    apply list_elem_of_fmap in Hin as (b & -> & Hb).
    by apply list_elem_of_filter in Hb as [Hne _].
  - intros d' Hne. by rewrite list_messages_filter, bool_decide_eq_false_2.
  - intros Hd. apply filter_all, Forall_forall. intros b Hb Heq. apply Hd.
    apply list_elem_of_fmap. by exists b.
Qed.


(** X5: deleting a date twice is deleting it once, and two deletions give
    the same store in either order. *)

Theorem delete_date_composes (self : Store) (d d' : str) :
  (delete_date d (delete_date d self).2).2 = (delete_date d self).2 /\
  (delete_date d (delete_date d' self).2).2 =
    (delete_date d' (delete_date d self).2).2.
Proof.
  unfold delete_date. cbn [snd]. split.
  - apply filter_all, Forall_forall. intros b Hb.
    by apply list_elem_of_filter in Hb as [? _].
  - rewrite !list_filter_filter. apply list_filter_iff. tauto.
Qed.


(** X6: with an index inside the messages of the first block of the date,
    [delete_message] returns and removes that message only: the block has
    one message less, the messages before the index keep their index, the
    ones after it move down by one, and the other dates are untouched. *)

Theorem delete_message_removes (self : Store) (d : str) (index : Z)
    (i : nat) (b : block) :
  first_block self d = Some (i, b) ->
  (0 <= index < Z.of_nat (length (messages b)))%Z ->
  delete_message d index self =
    (Returns, <[i := Block (date b) (delete (Z.to_nat index) (messages b))]> self) /\
  list_messages (delete_message d index self).2 d =
    inr (delete (Z.to_nat index) (messages b)) /\
  length (delete (Z.to_nat index) (messages b)) = pred (length (messages b)) /\
  (forall j, j < Z.to_nat index ->
     delete (Z.to_nat index) (messages b) !! j = messages b !! j) /\
  (forall j, Z.to_nat index <= j ->
     delete (Z.to_nat index) (messages b) !! j = messages b !! S j) /\
  (forall d', d' <> d ->
     list_messages (delete_message d index self).2 d' = list_messages self d').
Proof.
  intros Hfb Hidx.
  assert (Hdel : delete_message d index self =
    (Returns, <[i := Block (date b) (delete (Z.to_nat index) (messages b))]> self)).
  { unfold delete_message. rewrite delete_message_loop_spec, Hfb.
    unfold index_in_range.
    by rewrite (proj2 (Z.leb_le _ _)), (proj2 (Z.ltb_lt _ _)) by lia. }
  rewrite Hdel. cbn [snd]. split_and!.
  - done.
  - by rewrite list_messages_spec, (first_block_insert _ _ _ _ _ Hfb).
  - rewrite length_delete; [lia|]. apply lookup_lt_is_Some. lia.
  - intros j Hj. by apply list_lookup_delete_lt.
  - intros j Hj. by apply list_lookup_delete_ge.
  - intros d' Hne. by apply (first_block_insert_ne _ d).
Qed.


Lemma delete_message_removes_witness :
  first_block store_talk day = Some (0, Block day [hello; reply]) /\
  delete_message day 0 store_talk = (Returns, [Block day [reply]]).
Proof.
  assert (Hfb : first_block store_talk day = Some (0, Block day [hello; reply]))
    by reflexivity.
  split; [exact Hfb|].
  apply (delete_message_removes store_talk day 0 0 _ Hfb). cbn. lia.
Defined.

(** X7: for a date that no block has, [list_messages], [delete_message]
    and [edit_message] raise "No such date block", whatever the index and
    the updates, and the store is as before. *)

Theorem unknown_date_raises (self : Store) (d : str) (index : Z)
    (updates : list (string * str)) :
  d ∉ list_dates self ->
  list_messages self d = inl (NoSuchDateBlock d) /\
  delete_message d index self = (Raises (NoSuchDateBlock d), self) /\
  edit_message d index updates self = (Raises (NoSuchDateBlock d), self).
Proof.
  intros Hd.
  assert (Hfb : first_block self d = None).
  { destruct (first_block self d) as [[i b]|] eqn:E; [|done].
    apply first_block_Some in E as [Hi <-]. destruct Hd.
    apply list_elem_of_fmap. exists b. split; [done|].
    by eapply list_elem_of_lookup_2. }
  unfold delete_message, edit_message.
  by rewrite list_messages_spec, delete_message_loop_spec,
    edit_message_loop_spec, Hfb.
Qed.


Lemma unknown_date_raises_witness :
  (next_day ∉ list_dates store_hello) /\
  list_messages store_hello next_day = inl (NoSuchDateBlock next_day) /\
  delete_message next_day 0 store_hello =
    (Raises (NoSuchDateBlock next_day), store_hello) /\
  edit_message next_day 0 [("time"%string, lit "10:00:00")] store_hello =
    (Raises (NoSuchDateBlock next_day), store_hello).
Proof.
  assert (H : next_day ∉ list_dates store_hello).
  { intros Hin. apply list_elem_of_singleton in Hin. discriminate Hin. }
  split; [exact H|]. exact (unknown_date_raises store_hello next_day 0 _ H).
Defined.

(** X8: after [add_message] on a date that had a block, [delete_message]
    of the last index of that block gives the store of before. *)

Theorem add_then_delete_restores (self : Store) (d t r s c : str)
    (i : nat) (b : block) :
  first_block self d = Some (i, b) ->
  d <> [] -> t <> [] -> r <> [] -> s <> [] -> c <> [] ->
  delete_message d (Z.of_nat (length (messages b)))
    (add_message d t r s c self).2 = (Returns, self).
Proof.
  intros Hfb ? ? ? ? ?.
  unfold add_message. rewrite first_empty_None by done.
  rewrite add_to_block_spec, Hfb. cbn [snd].
  unfold delete_message. rewrite delete_message_loop_spec.
  rewrite (first_block_insert _ _ _ _ _ Hfb). cbn [messages date].
  assert (index_in_range (Z.of_nat (length (messages b)))
            (messages b ++ [Message t r s c]) = true) as ->.
  { unfold index_in_range. rewrite length_app. cbn.
    apply andb_true_iff. split; [apply Z.leb_le|apply Z.ltb_lt]; lia. }
  rewrite Nat2Z.id, delete_middle, app_nil_r, list_insert_insert_eq.
  f_equal. apply first_block_Some in Hfb as [Hi _].
  apply list_insert_id. rewrite Hi. by destruct b.
Qed.


Lemma add_then_delete_restores_witness :
  first_block store_hello day = Some (0, Block day [hello]) /\
  delete_message day 1
    (add_message day (lit "09:00:05") (lit "Alice") (lit "Bob") (lit "hi")
       store_hello).2 = (Returns, store_hello).
Proof.
  assert (Hfb : first_block store_hello day = Some (0, Block day [hello]))
    by reflexivity.
  split; [exact Hfb|].
  apply (add_then_delete_restores store_hello day (lit "09:00:05") (lit "Alice")
           (lit "Bob") (lit "hi") 0 _ Hfb); discriminate.
Defined.

(** X9: on a date that had no block, [add_message] followed by
    [delete_message] of index 0 does not give the store of before: the
    block stays, empty, and its date stays listed. *)

Theorem delete_only_message_keeps_block (self : Store) (d t r s c : str) :
  d ∉ list_dates self ->
  d <> [] -> t <> [] -> r <> [] -> s <> [] -> c <> [] ->
  delete_message d 0 (add_message d t r s c self).2 =
    (Returns, self ++ [Block d []]) /\
  list_messages (self ++ [Block d []]) d = inr [] /\
  list_dates (self ++ [Block d []]) = list_dates self ++ [d].
Proof.
  intros Hd ? ? ? ? ?.
  pose proof (not_listed_first_block _ _ Hd) as Hfb.
  split_and!.
  - unfold add_message. rewrite first_empty_None by done.
    rewrite add_to_block_spec, Hfb. cbn [snd].
    unfold delete_message. by rewrite delete_message_loop_app_new.
  - rewrite list_messages_app_new, list_messages_spec, Hfb.
    by rewrite bool_decide_eq_true_2.
  - unfold list_dates. by rewrite fmap_app.
Qed.


Lemma delete_only_message_keeps_block_witness :
  (next_day ∉ list_dates store_hello) /\
  delete_message next_day 0
    (add_message next_day (lit "10:00:00") (lit "Bob") (lit "Alice") (lit "yo")
       store_hello).2 = (Returns, store_hello ++ [Block next_day []]).
Proof.
  assert (H : next_day ∉ list_dates store_hello).
  { intros Hin. apply list_elem_of_singleton in Hin. discriminate Hin. }
  split; [exact H|].
  apply (delete_only_message_keeps_block store_hello next_day _ _ _ _ H);
    discriminate.
Defined.

(** X10: [delete_message] and [edit_message] never add or remove a
    block, whether they return or raise: [list_dates] and the number of
    blocks are as before. *)

Theorem index_operations_keep_dates (self : Store) (d : str) (index : Z)
    (updates : list (string * str)) :
  list_dates (delete_message d index self).2 = list_dates self /\
  list_dates (edit_message d index updates self).2 = list_dates self /\
  length (delete_message d index self).2 = length self /\
  length (edit_message d index updates self).2 = length self.
Proof.
  pose proof (delete_message_dates d index self) as H1.
  pose proof (edit_message_dates d index updates self) as H2.
  split_and!; [done|done| |].
  - apply (f_equal length) in H1. unfold list_dates in H1.
    by rewrite !length_fmap in H1.
  - apply (f_equal length) in H2. unfold list_dates in H2.
    by rewrite !length_fmap in H2.
Qed.


(** ** Editing *)

(** X11: when every item of [updates] has one of the four keys and a value
    that is not empty, [edit_message] returns and writes the items to the
    message, which replaces the old one at its index.  A field that no item
    names keeps its value, a field that an item names gets the value of the
    item, and with no item at all the store is unchanged. *)

Theorem edit_message_applies (self : Store) (d : str) (index : Z)
    (i : nat) (b : block) (msg : message) (updates : list (string * str)) :
  first_block self d = Some (i, b) ->
  (0 <= index)%Z ->
  messages b !! Z.to_nat index = Some msg ->
  Forall valid_update updates ->
  edit_message d index updates self =
    (Returns,
     <[i := Block (date b)
              (<[Z.to_nat index := write_all msg updates]> (messages b))]> self) /\
  (forall key, key ∉ updates.*1 ->
     get_item (write_all msg updates) key = get_item msg key) /\
  (NoDup updates.*1 -> forall key value, (key, value) ∈ updates ->
     get_item (write_all msg updates) key = value) /\
  (updates = [] -> edit_message d index updates self = (Returns, self)).
Proof.
  intros Hfb Hidx Hmsg Hv.
  assert (Hedit : edit_message d index updates self =
    (Returns,
     <[i := Block (date b)
              (<[Z.to_nat index := write_all msg updates]> (messages b))]> self)).
  { unfold edit_message. rewrite edit_message_loop_spec, Hfb, Hmsg.
    assert (index_in_range index (messages b) = true) as ->.
    { apply lookup_lt_Some in Hmsg. unfold index_in_range.
      apply andb_true_iff. split; [apply Z.leb_le|apply Z.ltb_lt]; lia. }
    by rewrite apply_updates_all. }
  split_and!.
  - done.
  - intros key Hkey. by apply write_all_other.
  - intros Hnd key value Hin. by apply write_all_get.
  - intros ->. rewrite Hedit. f_equal. cbn [write_all foldl].
    rewrite (list_insert_id (messages b)) by done.
    apply first_block_Some in Hfb as [Hi _].
    apply list_insert_id. rewrite Hi. by destruct b.
Qed.


Lemma edit_message_applies_witness :
  edit_message day 0
    [("time"%string, lit "10:00:00"); ("content"%string, lit "bye")] store_hello =
  (Returns,
   [Block day [Message (lit "10:00:00") (lit "Bob") (lit "Alice") (lit "bye")]]).
Proof.
  assert (Hfb : first_block store_hello day = Some (0, Block day [hello]))
    by reflexivity.
  assert (Hv : Forall valid_update
                 [("time"%string, lit "10:00:00"); ("content"%string, lit "bye")]).
  { apply List.Forall_cons.
    - split; [apply list_elem_of_here|discriminate].
    - apply List.Forall_cons; [|constructor].
      split; [|discriminate].
      do 3 apply list_elem_of_further. apply list_elem_of_here. }
  exact (proj1 (edit_message_applies store_hello day 0 0 _ hello _
                  Hfb (Z.le_refl 0) eq_refl Hv)).
Defined.

(** X12: with an index outside the messages of the first block of the
    date, [edit_message] raises "Invalid message index" before it looks at
    the updates, and the store is as before. *)

Theorem edit_message_out_of_range (self : Store) (d : str) (index : Z)
    (updates : list (string * str)) (i : nat) (b : block) :
  first_block self d = Some (i, b) ->
  (index < 0 \/ Z.of_nat (length (messages b)) <= index)%Z ->
  edit_message d index updates self = (Raises (InvalidMessageIndex index), self).
Proof.
  intros Hfb Hout. unfold edit_message.
  rewrite edit_message_loop_spec, Hfb.
  destruct (messages b !! Z.to_nat index); [|done].
  unfold index_in_range.
  destruct (0 <=? index)%Z eqn:E1, (index <? Z.of_nat (length (messages b)))%Z eqn:E2;
    try done.
  apply Z.leb_le in E1. apply Z.ltb_lt in E2. lia.
Qed.


Lemma edit_message_out_of_range_witness :
  first_block store_hello day = Some (0, Block day [hello]) /\
  edit_message day 1 [("colour"%string, lit "red")] store_hello =
    (Raises (InvalidMessageIndex 1), store_hello).
Proof.
  assert (Hfb : first_block store_hello day = Some (0, Block day [hello]))
    by reflexivity.
  split; [exact Hfb|].
  apply (edit_message_out_of_range _ _ _ _ _ _ Hfb). right. cbn. lia.
Defined.

(** ** An invariant of the messages *)

(** X13: in every store reachable from the empty store by [load],
    [add_message], [delete_date], [delete_message] and [edit_message],
    whether the calls return or raise, no field of any message is empty. *)

Theorem fields_never_empty (calls : list call) :
  fields_filled (run_all calls []).
Proof.
  unfold run_all. assert (Hstart : fields_filled []) by constructor.
  revert Hstart. generalize ([] : Store).
  induction calls as [|c calls IH]; intros self Hself; [done|].
  cbn [foldl]. apply IH. by apply run_filled.
Qed.


(** ** Searching and printing *)

(** X14: with every filter omitted or empty, [search_messages] returns
    every message of the store with its date, block after block. *)

Theorem search_without_filter (self : Store)
    (sender_arg receiver_arg text_arg : option str) :
  omitted sender_arg -> omitted receiver_arg -> omitted text_arg ->
  search_messages sender_arg receiver_arg text_arg self = all_hits self.
Proof.
  intros Hs Hr Ht.
  destruct (search_blocks sender_arg receiver_arg text_arg self [])
    as (out & Hout & Hsel).
  unfold search_messages. rewrite Hout. cbn [app].
  eapply selection_all; [|exact Hsel].
  apply Forall_forall. intros h _. unfold matches_nonempty.
  destruct Hs as [-> | ->], Hr as [-> | ->], Ht as [-> | ->];
    split_and!; intros a [= <-]; done.
Qed.


Lemma search_without_filter_witness :
  search_messages None (Some []) None store_talk =
  [Hit day hello; Hit day reply].
Proof.
  apply (search_without_filter store_talk None (Some []) None).
  - left. reflexivity.
  - right. reflexivity.
  - left. reflexivity.
Defined.

(** X15: [dumps] prints the empty text for the empty store and for no
    other store. *)

Theorem dumps_empty_iff (self : Store) : dumps self = [] <-> self = [].
Proof.
  split; [|by intros ->].
  destruct self as [|b self]; [done|]. unfold dumps.
  rewrite bind_cons. unfold block_lines at 1. cbn [app].
  intros H. by apply join_lines_nil in H.
Qed.


(** ** The lines that [load] accepts *)

(** X16: no line matches two of the three patterns, so the order in which
    [load] tries them decides nothing. *)

Theorem patterns_disjoint (line : str) :
  ~ (is_header line /\ is_message line) /\
  ~ (is_header line /\ is_end line) /\
  ~ (is_message line /\ is_end line).
Proof.
  unfold is_header, is_message, is_end. split_and!.
  - intros [[h Hh] [m Hm]].
    apply header_match_inv in Hh as (? & ? & ? & -> & _).
    apply message_match_inv in Hm as (? & ? & ? & ? & ? & Heq & _).
    cbv [message_line lit list_ascii_of_string app] in Heq. discriminate.
  - intros [[h Hh] [m Hm]].
    apply header_match_inv in Hh as (? & ? & ? & -> & _).
    apply end_match_inv in Hm as (? & Heq & _).
    cbv [end_line lit list_ascii_of_string app] in Heq. discriminate.
  - intros [[h Hh] [m Hm]].
    apply message_match_inv in Hh as (? & ? & ? & ? & ? & -> & _).
    apply end_match_inv in Hm as (? & Heq & _).
    cbv [message_line end_line lit list_ascii_of_string app] in Heq. discriminate.
Qed.


(** X17: on a text of white space only, the empty text included, [load]
    returns and the store is empty. *)

Theorem load_blank_text (text : str) (self : Store) :
  Forall (fun c => Char.isspace c = true) text ->
  load text self = (Returns, []).
Proof. intros H. unfold load. by rewrite stripped_lines_blank. Qed.


Lemma load_blank_text_witness :
  load ([" "%char; Char.chr 9; Char.CR; Char.LF; Char.LF; Char.chr 160])
    store_hello = (Returns, []).
Proof. apply load_blank_text. repeat constructor. Defined.

(** X18: [load] returns with the blocks [blocks] exactly when the lines
    of the text, with the white space before the closing token of each
    header replaced by a space, are the lines that [dumps] prints for
    [blocks], and [blocks] are blocks that read back. *)
Theorem load_accepts_exactly (text : str) (self blocks : Store) :
  load text self = (Returns, blocks) <->
  Forall block_reads_back blocks /\
  canonical <$> stripped_lines text = blocks ≫= block_lines.
Proof.
  unfold load. split.
  - intros H. split; [by eapply load_loop_reads_back in H;
      [|apply stripped_lines_clean|constructor|done|constructor]|].
    apply load_loop_lines in H; [|apply stripped_lines_clean]. by rewrite H.
  - intros [Hb Hl].
    rewrite <- load_loop_canonical by apply stripped_lines_clean.
    rewrite Hl. by rewrite load_loop_blocks.
Qed.

(** X19: when [load] returns, [dumps] of the blocks is the text with its
    blank lines dropped, its lines stripped and joined by newlines, and a
    space before the closing token of each header. *)

Theorem load_normalises (text : str) (self blocks : Store) :
  load text self = (Returns, blocks) ->
  dumps blocks = Str.join_lines (canonical <$> stripped_lines text).
Proof.
  intros H. unfold load in H.
  apply load_loop_lines in H; [|apply stripped_lines_clean].
  unfold dumps. by rewrite H.
Qed.


Lemma load_normalises_witness :
  load text_hello_loose [] = (Returns, store_hello) /\
  dumps store_hello = Str.join_lines (canonical <$> stripped_lines text_hello_loose).
Proof.
  assert (H : load text_hello_loose [] = (Returns, store_hello))
    by (vm_compute; reflexivity).
  split; [exact H|]. exact (load_normalises _ _ _ H).
Defined.

(** X20: when [load] returns, the text has no line outside the three
    shapes, its first line is a header and its last line is the end marker;
    it has no line at all exactly when no block is built. *)

Theorem load_returns_only_on_blocks (text : str) (self blocks : Store) :
  load text self = (Returns, blocks) ->
  (stripped_lines text = [] <-> blocks = []) /\
  (forall line, head (stripped_lines text) = Some line -> is_header line) /\
  (forall line, last (stripped_lines text) = Some line -> line = end_line) /\
  Forall (fun line => is_header line \/ is_message line \/ line = end_line)
    (stripped_lines text).
Proof.
  intros H. unfold load in H.
  pose proof (stripped_lines_clean text) as Hclean.
  pose proof (load_loop_shapes _ _ _ _ _ Hclean H) as Hshapes.
  apply load_loop_lines in H; [|done]. cbn in H.
  destruct (stripped_lines text) as [|l ls] eqn:El.
  { cbn in H. apply block_lines_nil in H. by split_and!. }
  split_and!.
  - split; [done|]. intros ->. done.
  - intros line [= <-]. destruct blocks as [|b bs]; [done|].
    cbn [fmap list_fmap mbind list_bind block_lines app] in H.
    injection H as H _.
    apply Forall_cons in Hclean as [Hl _]. by eapply canonical_header.
  - intros line Hlast.
    destruct (decide (blocks = [])) as [->|Hne]; [done|].
    destruct (exists_last Hne) as (bs & b & ->).
    apply (f_equal last) in H. rewrite block_lines_last in H.
    rewrite fmap_last, Hlast in H. cbn [fmap option_fmap option_map] in H.
    apply canonical_end. by injection H.
  - done.
Qed.


Lemma load_returns_only_on_blocks_witness :
  load text_hello_loose [] = (Returns, store_hello) /\
  (forall line, last (stripped_lines text_hello_loose) = Some line ->
     line = end_line).
Proof.
  assert (H : load text_hello_loose [] = (Returns, store_hello))
    by (vm_compute; reflexivity).
  split; [exact H|].
  exact (proj1 (proj2 (proj2 (load_returns_only_on_blocks _ _ _ H)))).
Defined.

(** X21: [load] does on a text what it does on its lines stripped, and
    on its lines stripped with every header printed anew: blank lines, the
    white space around a line and the kind of white space in a header
    change neither the blocks nor the error. *)
Theorem load_reads_canonical_text (text : str) (self : Store) :
  load (Str.join_lines (stripped_lines text)) self = load text self /\
  load (Str.join_lines (canonical <$> stripped_lines text)) self = load text self.
Proof.
  pose proof (stripped_lines_clean text) as Hclean.
  unfold load. split.
  - by rewrite stripped_lines_join.
  - rewrite stripped_lines_join.
    + by apply load_loop_canonical.
    + apply Forall_fmap. eapply Forall_impl; [exact Hclean|].
      apply canonical_clean.
Qed.

(** X22: when [load] returns on a text, [load] of that text followed by a
    newline and a second text ends as [load] of the second text ends, with
    the blocks of the first text before the blocks of the second. *)
Theorem load_concatenation (text1 text2 : str) (self blocks1 : Store) :
  load text1 self = (Returns, blocks1) ->
  load (text1 ++ Char.LF :: text2) self =
    ((load text2 self).1, blocks1 ++ (load text2 self).2).
Proof.
  unfold load. intros H. rewrite stripped_lines_app.
  rewrite (load_loop_app _ _ _ _ _ _ H).
  rewrite <- (app_nil_r blocks1) at 1. apply load_loop_before.
Qed.

Lemma load_concatenation_witness :
  load text_hello [] = (Returns, store_hello) /\
  load (text_hello ++ Char.LF :: text_open) [] =
    (Raises MissingEnd, store_hello) /\
  load (text_hello ++ Char.LF :: text_hello) [] =
    (Returns, store_hello ++ store_hello).
Proof.
  assert (H : load text_hello [] = (Returns, store_hello))
    by (vm_compute; reflexivity).
  split; [exact H|]. split.
  - exact (load_concatenation text_hello text_open [] _ H).
  - rewrite (load_concatenation text_hello text_hello [] _ H). by rewrite H.
Defined.

(** X23: when [load] returns, [list_dates] is the list of the dates of
    the header lines of the text, in their order and with their
    repetitions. *)

Theorem load_lists_header_dates (text : str) (self blocks : Store) :
  load text self = (Returns, blocks) ->
  list_dates blocks = header_dates text.
Proof.
  intros H. unfold load in H. by apply load_loop_all_dates in H.
Qed.


Lemma load_lists_header_dates_witness :
  load (text_hello ++ Char.LF :: text_hello) [] =
    (Returns, store_hello ++ store_hello) /\
  list_dates (store_hello ++ store_hello) =
    header_dates (text_hello ++ Char.LF :: text_hello).
Proof.
  assert (H : load (text_hello ++ Char.LF :: text_hello) [] =
                (Returns, store_hello ++ store_hello))
    by (vm_compute; reflexivity).
  split; [exact H|]. exact (load_lists_header_dates _ _ _ H).
Defined.

(** X24: every block that [load] leaves in the store, whether it returns
    or raises, has a date without line boundary, and every message of it
    has a time of the shape DD:DD:DD and a receiver, a sender and a content
    that are not empty and hold no line boundary. *)

Theorem loaded_messages_well_shaped (text : str) (self : Store)
    (res : outcome) (blocks : Store) :
  load text self = (res, blocks) ->
  Forall (fun b => no_linebreak (date b) /\ Forall well_shaped (messages b)) blocks.
Proof.
  intros H. apply load_reads_back in H.
  eapply Forall_impl; [exact H|]. intros b [Hd Hb]. split; [done|].
  eapply Forall_impl; [exact Hb|]. apply reads_back_well_shaped.
Qed.


Lemma loaded_messages_well_shaped_witness :
  load (text_hello ++ Char.LF :: text_open) [] =
    (Raises MissingEnd, store_hello) /\
  Forall (fun b => no_linebreak (date b) /\ Forall well_shaped (messages b))
    store_hello.
Proof.
  assert (H : load (text_hello ++ Char.LF :: text_open) [] =
                (Raises MissingEnd, store_hello))
    by (vm_compute; reflexivity).
  split; [exact H|]. exact (loaded_messages_well_shaped _ _ _ _ H).
Defined.

(** ** Round trips *)

(** X25: two stores that [load] returned and that [dumps] prints alike are
    the same store. *)

Theorem dumps_injective_on_loaded (text1 text2 : str) (self1 self2 : Store)
    (blocks1 blocks2 : Store) :
  load text1 self1 = (Returns, blocks1) ->
  load text2 self2 = (Returns, blocks2) ->
  dumps blocks1 = dumps blocks2 ->
  blocks1 = blocks2.
Proof.
  intros H1 H2 Hd.
  apply load_reads_back in H1. apply load_reads_back in H2.
  pose proof (load_dumps blocks1 [] H1) as E1.
  pose proof (load_dumps blocks2 [] H2) as E2.
  rewrite Hd in E1. congruence.
Qed.


Lemma dumps_injective_on_loaded_witness :
  load text_hello [] = (Returns, store_hello) /\
  load text_hello_loose store_talk = (Returns, store_hello) /\
  store_hello = store_hello.
Proof.
  assert (H1 : load text_hello [] = (Returns, store_hello))
    by (vm_compute; reflexivity).
  assert (H2 : load text_hello_loose store_talk = (Returns, store_hello))
    by (vm_compute; reflexivity).
  split; [exact H1|]. split; [exact H2|].
  exact (dumps_injective_on_loaded _ _ _ _ _ _ H1 H2 eq_refl).
Defined.

(** X26: a store reached from the empty store by any [load], by
    [delete_date] and [delete_message], and by [add_message] with arguments
    that the format can carry, whether the calls return or raise, is read
    back by [load] from what [dumps] prints for it. *)

Theorem portable_calls_round_trip (calls : list call) :
  Forall portable calls -> round_trips (run_all calls []).
Proof.
  intros H self. apply load_dumps. unfold run_all.
  assert (Hstart : Forall block_reads_back ([] : Store)) by constructor.
  revert Hstart. generalize ([] : Store).
  induction H as [|c calls Hc _ IH]; intros store Hstore; [done|].
  cbn [foldl]. apply IH. by apply run_reads_back.
Qed.


Lemma portable_calls_hold : Forall portable calls_portable.
Proof.
  repeat (apply List.Forall_cons;
    [first [exact I
           |cbn [portable]; split_and!; try done; try (repeat constructor);
            intros Hin;
            by repeat (apply elem_of_cons in Hin as [Hin|Hin]; [done|]);
            apply elem_of_nil in Hin]|]).
  constructor.
Defined.

Lemma portable_calls_round_trip_witness :
  Forall portable calls_portable /\
  run_all calls_portable [] = store_portable /\
  round_trips store_portable.
Proof.
  assert (Hrun : run_all calls_portable [] = store_portable)
    by (vm_compute; reflexivity).
  split; [exact portable_calls_hold|]. split; [exact Hrun|].
  rewrite <- Hrun.
  exact (portable_calls_round_trip _ portable_calls_hold).
Defined.
